(** * Flight queue (Tarea2): a doubly linked list kept in step with a table

    Shallow embedding of [src/Tarea2/models.py] (class [ListaVuelos] and its
    helpers) and of the end points of [src/Tarea2/main.py], followed by the
    embedding of the mission queues of [src/tarea1.py]; then the vocabulary
    of the properties (well formed chains of nodes and of rows, the states
    used as examples), then the properties.

    - A [Vuelo] object is identified with its row of the table [vuelos]
      (SQLAlchemy keeps one object per primary key), so a reference to a
      [Vuelo] is its [id] and its attributes are read from the row.  This
      is the engine at work on flights of its own session that have a row,
      as every flight is that [_cargar_desde_bd] has loaded: [session.add]
      accepts the object and [commit] writes the links assigned to it, an
      UPDATE of its row.  Two things are outside the model.  A flight
      without a row would be inserted by [add] and [commit].  And in
      [main.py] the handler creates the flight on the session of the
      request while the engine has a session of its own: as long as that
      request lasts, [session.add] of the new object raises inside
      [_actualizar_bd], which swallows it like a failing commit, and the
      links assigned stay on the object until a later write of that flight
      goes through.  The end points are modelled as working on the
      engine's session; what is stated over them is about the queue in
      memory, the answers and the keys of the rows, and about the rows
      that an extraction or a reordering leaves behind in four runs that
      are written out.  The properties of the round trip are stated for
      an engine built on a table, where every flight is one of the
      engine's session.
    - [Nodo] objects live in a heap; a reference to a node is an address,
      [None] is Python's [None].
    - Methods are computations in a state-and-exception monad over the
      engine, the node heap and the session.  After a [raise] the state
      reached so far is kept, as in Python.
    - [while] loops take a fuel argument; running out of it is the separate
      outcome [Agotado], never a value. *)

From Stdlib Require Import ZArith Lia.
From stdpp Require Import base option list gmap strings.

Local Open Scope Z_scope.

(** ** Data model *)

Inductive EstadoVuelo := PROGRAMADO | EMERGENCIA | RETRASADO.

#[global] Instance EstadoVuelo_eq_dec : EqDecision EstadoVuelo.
Proof. solve_decision. Defined.

(** A row of the table [vuelos]. *)
Module Vuelo.
Record t := {
  id : Z;
  codigo : string;
  estado : EstadoVuelo;
  hora : Z;
  origen : string;
  destino : string;
  posicion : option Z;
  anterior_id : option Z;
  siguiente_id : option Z
}.
End Vuelo.

(** The request body of the creating end points. *)
Module VueloBase.
Record t := {
  codigo : string;
  estado : EstadoVuelo;
  hora : Z;
  origen : string;
  destino : string
}.
End VueloBase.

(** The database behind the sessions: the rows in scan order, and the
    outcomes of the commits to come ([true]: that commit raises; an
    exhausted list: every later commit succeeds). *)
Record Session := {
  filas : list Vuelo.t;
  fallos : list bool
}.

(** Addresses of [Nodo] objects. *)
Definition dir := nat.

(** A [Nodo]: the flight it wraps and its two references. *)
Module Nodo.
Record t := {
  vuelo : Z;
  anterior : option dir;
  siguiente : option dir
}.
End Nodo.

(** The [ListaVuelos] object ([cabeza], [cola], [size], [session]) together
    with the heap of the nodes ([nodos], and [libre], the next address to
    hand out; nodes are never freed). *)
Record Estado := {
  nodos : gmap dir Nodo.t;
  libre : dir;
  cabeza : option dir;
  cola : option dir;
  size : Z;
  session : Session
}.

(** The three messages of the [ValueError]s of [ListaVuelos]: a position out
    of range (with the position and the upper end of the range, as in the
    message), a list of ids of the wrong length, an id that is not queued. *)
Inductive Mensaje :=
  | PosicionFueraDeRango (posicion limite : Z)
  | CantidadNoCoincide
  | IdsNoExisten.

Inductive Excepcion :=
  | ValueError (m : Mensaje)
  | AttributeError
  | KeyError
  | SQLAlchemyError
  | HTTPException (status_code : Z).

(** How a call ends: it returns, it raises, or it is still running when the
    fuel is spent. *)
Inductive Resultado (A : Type) :=
  | Ok (a : A)
  | Raise (e : Excepcion)
  | Agotado.
Arguments Ok {A} a.
Arguments Raise {A} e.
Arguments Agotado {A}.

(** ** The monad *)

Definition M (A : Type) : Type := Estado → Estado * Resultado A.

Definition ret {A} (a : A) : M A := λ s, (s, Ok a).

Definition bind {A B} (c : M A) (k : A → M B) : M B :=
  λ s, match c s with
       | (s', Ok a) => k a s'
       | (s', Raise e) => (s', Raise e)
       | (s', Agotado) => (s', Agotado)
       end.

Definition raise {A} (e : Excepcion) : M A := λ s, (s, Raise e).

Definition agotado {A} : M A := λ s, (s, Agotado).

Definition leer {A} (f : Estado → A) : M A := λ s, (s, Ok (f s)).

Definition modificar (f : Estado → Estado) : M unit := λ s, (f s, Ok tt).

(** [try: c except Exception: h]. *)
Definition try_except {A} (c : M A) (h : Excepcion → M A) : M A :=
  λ s, match c s with
       | (s', Raise e) => h e s'
       | r => r
       end.

Notation "x <- c ;; k" := (bind c (λ x, k))
  (at level 100, c at next level, k at level 200, right associativity, only parsing).
Notation "c ;; k" := (bind c (λ _, k))
  (at level 100, k at level 200, right associativity, only parsing).

(** *** Attribute writes on the engine *)

Definition con_cabeza (c : option dir) (s : Estado) : Estado :=
  {| nodos := nodos s; libre := libre s; cabeza := c; cola := cola s;
     size := size s; session := session s |}.

Definition con_cola (c : option dir) (s : Estado) : Estado :=
  {| nodos := nodos s; libre := libre s; cabeza := cabeza s; cola := c;
     size := size s; session := session s |}.

Definition con_size (n : Z) (s : Estado) : Estado :=
  {| nodos := nodos s; libre := libre s; cabeza := cabeza s; cola := cola s;
     size := n; session := session s |}.

Definition con_session (b : Session) (s : Estado) : Estado :=
  {| nodos := nodos s; libre := libre s; cabeza := cabeza s; cola := cola s;
     size := size s; session := b |}.

Definition con_nodos (h : gmap dir Nodo.t) (s : Estado) : Estado :=
  {| nodos := h; libre := libre s; cabeza := cabeza s; cola := cola s;
     size := size s; session := session s |}.

Definition poner_cabeza (c : option dir) : M unit := modificar (con_cabeza c).
Definition poner_cola (c : option dir) : M unit := modificar (con_cola c).
Definition poner_size (n : Z) : M unit := modificar (con_size n).

(** *** Node objects *)

(** [Nodo(vuelo)]: a new object, both links [None]. *)
Definition Nodo_init (v : Z) : M dir :=
  λ s, ({| nodos :=
             <[libre s := {| Nodo.vuelo := v; Nodo.anterior := None;
                             Nodo.siguiente := None |}]> (nodos s);
           libre := S (libre s); cabeza := cabeza s; cola := cola s;
           size := size s; session := session s |},
        Ok (libre s)).

(** Reading through a reference: [None] has no attributes.  (An address
    outside the heap cannot arise in Python; it is treated like [None].) *)
Definition nodo (r : option dir) : M Nodo.t :=
  λ s, match r with
       | Some d =>
           match nodos s !! d with
           | Some n => (s, Ok n)
           | None => (s, Raise AttributeError)
           end
       | None => (s, Raise AttributeError)
       end.

Definition attr {A} (f : Nodo.t → A) (r : option dir) : M A :=
  n <- nodo r ;; ret (f n).

(** [r.anterior = x] and [r.siguiente = x]. *)
Definition poner_anterior (r : option dir) (x : option dir) : M unit :=
  λ s, match r with
       | Some d =>
           match nodos s !! d with
           | Some n =>
               (con_nodos
                  (<[d := {| Nodo.vuelo := Nodo.vuelo n; Nodo.anterior := x;
                             Nodo.siguiente := Nodo.siguiente n |}]> (nodos s)) s,
                Ok tt)
           | None => (s, Raise AttributeError)
           end
       | None => (s, Raise AttributeError)
       end.

Definition poner_siguiente (r : option dir) (x : option dir) : M unit :=
  λ s, match r with
       | Some d =>
           match nodos s !! d with
           | Some n =>
               (con_nodos
                  (<[d := {| Nodo.vuelo := Nodo.vuelo n; Nodo.anterior := Nodo.anterior n;
                             Nodo.siguiente := x |}]> (nodos s)) s,
                Ok tt)
           | None => (s, Raise AttributeError)
           end
       | None => (s, Raise AttributeError)
       end.

(** ** The table *)

(** The row [v] with other links. *)
Definition con_enlaces (a sg : option Z) (v : Vuelo.t) : Vuelo.t :=
  {| Vuelo.id := Vuelo.id v; Vuelo.codigo := Vuelo.codigo v;
     Vuelo.estado := Vuelo.estado v; Vuelo.hora := Vuelo.hora v;
     Vuelo.origen := Vuelo.origen v; Vuelo.destino := Vuelo.destino v;
     Vuelo.posicion := Vuelo.posicion v;
     Vuelo.anterior_id := a; Vuelo.siguiente_id := sg |}.

(** The assignments of [_actualizar_bd] on the object: an argument that is
    [None] leaves the attribute as it is. *)
Definition asignar (anterior_id siguiente_id : option Z) (v : Vuelo.t) : Vuelo.t :=
  con_enlaces
    (match anterior_id with Some a => Some a | None => Vuelo.anterior_id v end)
    (match siguiente_id with Some g => Some g | None => Vuelo.siguiente_id v end)
    v.

(** [UPDATE vuelos SET ... WHERE id = i], the statement a commit issues for
    an object that has a row; without a row with key [i] nothing changes
    here (for such an object the session would issue an INSERT; the engine
    is modelled on flights that have a row). *)
Definition actualizar_fila (i : Z) (f : Vuelo.t → Vuelo.t) (fs : list Vuelo.t) : list Vuelo.t :=
  map (λ v, if decide (Vuelo.id v = i) then f v else v) fs.

(** The index [{v.id: v for v in vuelos}]: of two rows with the same key
    the later one stays. *)
Definition indice (fs : list Vuelo.t) : gmap Z Vuelo.t :=
  foldl (λ d v, <[Vuelo.id v := v]> d) ∅ fs.

(** ** [ListaVuelos] *)

(** [_actualizar_bd]: set the attributes that were given, add and commit;
    an exception of the session is caught, the transaction rolled back (the
    object falls back to its row) and [False] returned.  [vuelo] is an
    object that [self.session] accepts and that has a row; the failures are
    those of [commit]. *)
Definition _actualizar_bd (vuelo : Z) (anterior_id siguiente_id : option Z) : M bool :=
  b <- leer session ;;
  match fallos b with
  | true :: resto =>
      modificar (con_session {| filas := filas b; fallos := resto |}) ;;
      ret false
  | _ =>
      modificar (con_session
        {| filas := actualizar_fila vuelo (asignar anterior_id siguiente_id) (filas b);
           fallos := tail (fallos b) |}) ;;
      ret true
  end.

Definition insertar_al_frente (vuelo : Z) : M Z :=
  nuevo_nodo <- Nodo_init vuelo ;;
  c <- leer cabeza ;;
  match c with
  | None =>
      poner_cabeza (Some nuevo_nodo) ;;
      poner_cola (Some nuevo_nodo) ;;
      _actualizar_bd vuelo None None ;;
      ret tt
  | Some _ =>
      poner_siguiente (Some nuevo_nodo) c ;;
      poner_anterior c (Some nuevo_nodo) ;;
      cv <- attr Nodo.vuelo c ;;
      _actualizar_bd vuelo None (Some cv) ;;
      cv' <- attr Nodo.vuelo c ;;
      _actualizar_bd cv' (Some vuelo) None ;;
      poner_cabeza (Some nuevo_nodo)
  end ;;
  n <- leer size ;;
  poner_size (n + 1) ;;
  ret vuelo.

Definition insertar_al_final (vuelo : Z) : M Z :=
  nuevo_nodo <- Nodo_init vuelo ;;
  c <- leer cola ;;
  match c with
  | None =>
      poner_cabeza (Some nuevo_nodo) ;;
      poner_cola (Some nuevo_nodo) ;;
      _actualizar_bd vuelo None None ;;
      ret tt
  | Some _ =>
      poner_anterior (Some nuevo_nodo) c ;;
      poner_siguiente c (Some nuevo_nodo) ;;
      cv <- attr Nodo.vuelo c ;;
      _actualizar_bd vuelo (Some cv) None ;;
      cv' <- attr Nodo.vuelo c ;;
      _actualizar_bd cv' None (Some vuelo) ;;
      poner_cola (Some nuevo_nodo)
  end ;;
  n <- leer size ;;
  poner_size (n + 1) ;;
  ret vuelo.

Definition obtener_primero : M (option Z) :=
  c <- leer cabeza ;;
  match c with
  | None => ret None
  | Some _ => v <- attr Nodo.vuelo c ;; ret (Some v)
  end.

Definition obtener_ultimo : M (option Z) :=
  c <- leer cola ;;
  match c with
  | None => ret None
  | Some _ => v <- attr Nodo.vuelo c ;; ret (Some v)
  end.

Definition longitud : M Z := leer size.

(** [for _ in range(n): actual = actual.siguiente]. *)
Fixpoint avanzar (n : nat) (actual : option dir) : M (option dir) :=
  match n with
  | O => ret actual
  | S n' => sg <- attr Nodo.siguiente actual ;; avanzar n' sg
  end.

Definition insertar_en_posicion (vuelo : Z) (posicion : Z) : M Z :=
  n <- leer size ;;
  if (posicion <? 0) || (posicion >? n) then
    raise (ValueError (PosicionFueraDeRango posicion n))
  else if posicion =? 0 then insertar_al_frente vuelo
  else if posicion =? n then insertar_al_final vuelo
  else
    nuevo_nodo <- Nodo_init vuelo ;;
    c <- leer cabeza ;;
    actual <- avanzar (Z.to_nat posicion) c ;;
    a <- attr Nodo.anterior actual ;;
    poner_anterior (Some nuevo_nodo) a ;;
    poner_siguiente (Some nuevo_nodo) actual ;;
    a1 <- attr Nodo.anterior actual ;;
    av <- attr Nodo.vuelo a1 ;;
    cv <- attr Nodo.vuelo actual ;;
    _actualizar_bd vuelo (Some av) (Some cv) ;;
    a2 <- attr Nodo.anterior actual ;;
    av2 <- attr Nodo.vuelo a2 ;;
    _actualizar_bd av2 None (Some vuelo) ;;
    cv2 <- attr Nodo.vuelo actual ;;
    _actualizar_bd cv2 (Some vuelo) None ;;
    a3 <- attr Nodo.anterior actual ;;
    poner_siguiente a3 (Some nuevo_nodo) ;;
    poner_anterior actual (Some nuevo_nodo) ;;
    m <- leer size ;;
    poner_size (m + 1) ;;
    ret vuelo.

Definition extraer_de_posicion (posicion : Z) : M Z :=
  n <- leer size ;;
  if (posicion <? 0) || (posicion >=? n) then
    raise (ValueError (PosicionFueraDeRango posicion (n - 1)))
  else
    vuelo_extraido <-
      (if posicion =? 0 then
         nodo_extraido <- leer cabeza ;;
         vuelo_extraido <- attr Nodo.vuelo nodo_extraido ;;
         sg <- attr Nodo.siguiente nodo_extraido ;;
         poner_cabeza sg ;;
         c <- leer cabeza ;;
         match c with
         | Some _ =>
             poner_anterior c None ;;
             cv <- attr Nodo.vuelo c ;;
             _actualizar_bd cv None None ;;
             ret tt
         | None => poner_cola None
         end ;;
         _actualizar_bd vuelo_extraido None None ;;
         ret vuelo_extraido
       else if posicion =? n - 1 then
         nodo_extraido <- leer cola ;;
         vuelo_extraido <- attr Nodo.vuelo nodo_extraido ;;
         an <- attr Nodo.anterior nodo_extraido ;;
         poner_cola an ;;
         c <- leer cola ;;
         match c with
         | Some _ =>
             poner_siguiente c None ;;
             cv <- attr Nodo.vuelo c ;;
             _actualizar_bd cv None None ;;
             ret tt
         | None => poner_cabeza None
         end ;;
         _actualizar_bd vuelo_extraido None None ;;
         ret vuelo_extraido
       else
         c <- leer cabeza ;;
         actual <- avanzar (Z.to_nat posicion) c ;;
         vuelo_extraido <- attr Nodo.vuelo actual ;;
         sg <- attr Nodo.siguiente actual ;;
         a <- attr Nodo.anterior actual ;;
         poner_siguiente a sg ;;
         a' <- attr Nodo.anterior actual ;;
         sg' <- attr Nodo.siguiente actual ;;
         poner_anterior sg' a' ;;
         a1 <- attr Nodo.anterior actual ;;
         av <- attr Nodo.vuelo a1 ;;
         s1 <- attr Nodo.siguiente actual ;;
         sv <- attr Nodo.vuelo s1 ;;
         _actualizar_bd av None (Some sv) ;;
         s2 <- attr Nodo.siguiente actual ;;
         sv2 <- attr Nodo.vuelo s2 ;;
         a2 <- attr Nodo.anterior actual ;;
         av2 <- attr Nodo.vuelo a2 ;;
         _actualizar_bd sv2 (Some av2) None ;;
         _actualizar_bd vuelo_extraido None None ;;
         ret vuelo_extraido) ;;
    m <- leer size ;;
    poner_size (m - 1) ;;
    ret vuelo_extraido.

(** [while nodo_actual: vuelos.append(nodo_actual.vuelo); ...]. *)
Fixpoint listar_desde (fuel : nat) (nodo_actual : option dir) (vuelos : list Z) : M (list Z) :=
  match nodo_actual with
  | None => ret vuelos
  | Some _ =>
      match fuel with
      | O => agotado
      | S fuel' =>
          v <- attr Nodo.vuelo nodo_actual ;;
          sg <- attr Nodo.siguiente nodo_actual ;;
          listar_desde fuel' sg (vuelos ++ [v])
      end
  end.

Definition listar_todos (fuel : nat) : M (list Z) :=
  c <- leer cabeza ;;
  listar_desde fuel c [].

(** [while nodo_actual: vuelos[nodo_actual.vuelo.id] = nodo_actual.vuelo; ...]. *)
Fixpoint recoger (fuel : nat) (nodo_actual : option dir) (vuelos : gmap Z Z) : M (gmap Z Z) :=
  match nodo_actual with
  | None => ret vuelos
  | Some _ =>
      match fuel with
      | O => agotado
      | S fuel' =>
          v <- attr Nodo.vuelo nodo_actual ;;
          sg <- attr Nodo.siguiente nodo_actual ;;
          recoger fuel' sg (<[v := v]> vuelos)
      end
  end.

(** [vuelos[id]]. *)
Definition elemento (vuelos : gmap Z Z) (i : Z) : M Z :=
  match vuelos !! i with
  | Some v => ret v
  | None => raise KeyError
  end.

(** [for id in orden_ids: self.insertar_al_final(vuelos[id])]. *)
Fixpoint reinsertar (vuelos : gmap Z Z) (orden_ids : list Z) : M unit :=
  match orden_ids with
  | [] => ret tt
  | i :: resto =>
      v <- elemento vuelos i ;;
      insertar_al_final v ;;
      reinsertar vuelos resto
  end.

Definition reordenar (fuel : nat) (orden_ids : list Z) : M (list Z) :=
  n <- leer size ;;
  if negb (Z.of_nat (length orden_ids) =? n) then
    raise (ValueError CantidadNoCoincide)
  else
    c <- leer cabeza ;;
    vuelos <- recoger fuel c ∅ ;;
    if negb (forallb (λ i, bool_decide (is_Some (vuelos !! i))) orden_ids) then
      raise (ValueError IdsNoExisten)
    else
      poner_cabeza None ;;
      poner_cola None ;;
      poner_size 0 ;;
      reinsertar vuelos orden_ids ;;
      listar_todos fuel.

(** [while siguiente_id and siguiente_id in vuelos_dict: ...]; returns the
    last node reached. *)
Fixpoint seguir (fuel : nat) (vuelos_dict : gmap Z Vuelo.t)
    (siguiente_id : option Z) (nodo_actual : dir) : M dir :=
  match siguiente_id with
  | Some i =>
      if negb (i =? 0) && bool_decide (is_Some (vuelos_dict !! i)) then
        match fuel with
        | O => agotado
        | S fuel' =>
            match vuelos_dict !! i with
            | Some siguiente_vuelo =>
                nuevo_nodo <- Nodo_init (Vuelo.id siguiente_vuelo) ;;
                poner_anterior (Some nuevo_nodo) (Some nodo_actual) ;;
                poner_siguiente (Some nodo_actual) (Some nuevo_nodo) ;;
                n <- leer size ;;
                poner_size (n + 1) ;;
                seguir fuel' vuelos_dict (Vuelo.siguiente_id siguiente_vuelo) nuevo_nodo
            | None => raise KeyError
            end
        end
      else ret nodo_actual
  | None => ret nodo_actual
  end.

Definition _cargar_desde_bd (fuel : nat) : M unit :=
  try_except
    (b <- leer session ;;
     let vuelos := filas b in
     match vuelos with
     | [] => ret tt
     | primero :: _ =>
         let vuelos_dict := indice vuelos in
         let cabeza' :=
           match List.find (λ v, bool_decide (Vuelo.anterior_id v = None)) vuelos with
           | Some v => v
           | None => primero
           end in
         nc <- Nodo_init (Vuelo.id cabeza') ;;
         poner_cabeza (Some nc) ;;
         poner_size 1 ;;
         ultimo <- seguir fuel vuelos_dict (Vuelo.siguiente_id cabeza') nc ;;
         poner_cola (Some ultimo)
     end)
    (λ _,
       poner_cabeza None ;;
       poner_cola None ;;
       poner_size 0).

(** The first assignments of [ListaVuelos.__init__], on a heap without
    nodes. *)
Definition recien_creada (b : Session) : Estado :=
  {| nodos := ∅; libre := O; cabeza := None; cola := None; size := 0; session := b |}.

(** [ListaVuelos(session)]. *)
Definition ListaVuelos_init (fuel : nat) (b : Session) : Estado * Resultado unit :=
  _cargar_desde_bd fuel (recien_creada b).

(** ** The end points of [main.py] *)

(** The key SQLite gives a new row: one more than the greatest in use. *)
Definition proximo_id (fs : list Vuelo.t) : Z :=
  1 + foldr Z.max 0 (map Vuelo.id fs).

(** The column [codigo] is unique. *)
Definition codigo_ocupado (vuelo_data : VueloBase.t) (fs : list Vuelo.t) : bool :=
  existsb (λ v, String.eqb (Vuelo.codigo v) (VueloBase.codigo vuelo_data)) fs.

(** [Vuelo(codigo=..., estado=..., hora=..., origen=..., destino=...)] under
    the key [i]. *)
Definition nueva_fila (vuelo_data : VueloBase.t) (i : Z) : Vuelo.t :=
  {| Vuelo.id := i;
     Vuelo.codigo := VueloBase.codigo vuelo_data;
     Vuelo.estado := VueloBase.estado vuelo_data;
     Vuelo.hora := VueloBase.hora vuelo_data;
     Vuelo.origen := VueloBase.origen vuelo_data;
     Vuelo.destino := VueloBase.destino vuelo_data;
     Vuelo.posicion := None;
     Vuelo.anterior_id := None;
     Vuelo.siguiente_id := None |}.

(** [db.add(nuevo_vuelo); db.commit(); db.refresh(nuevo_vuelo)]: the commit
    can fail like any other, and it fails on a [codigo] already in the
    table; otherwise the table gets the new row and the object its key. *)
Definition db_crear (vuelo_data : VueloBase.t) : M Z :=
  b <- leer session ;;
  match fallos b with
  | true :: resto =>
      modificar (con_session {| filas := filas b; fallos := resto |}) ;;
      raise SQLAlchemyError
  | _ =>
      if codigo_ocupado vuelo_data (filas b) then
        modificar (con_session {| filas := filas b; fallos := tail (fallos b) |}) ;;
        raise SQLAlchemyError
      else
        let nuevo := proximo_id (filas b) in
        modificar (con_session
          {| filas := filas b ++ [nueva_fila vuelo_data nuevo];
             fallos := tail (fallos b) |}) ;;
        ret nuevo
  end.

(** [POST /vuelos].  ([db.rollback()] in the handler undoes nothing that was
    committed.)  The session [db] of the request and the session of
    [lista_vuelos] are one session here: the engine's write for the new
    flight goes through, where in the running program it is refused while
    the object belongs to [db] and is made up for by the next write of that
    flight.  The queue in memory, the answer and the keys of the rows are
    the same either way. *)
Definition agregar_vuelo (vuelo_data : VueloBase.t) : M Z :=
  try_except
    (nuevo_vuelo <- db_crear vuelo_data ;;
     (if decide (VueloBase.estado vuelo_data = EMERGENCIA) then
        insertar_al_frente nuevo_vuelo
      else
        insertar_al_final nuevo_vuelo) ;;
     ret nuevo_vuelo)
    (λ _, raise (HTTPException 500)).

(** [POST /vuelos/insertar]; [Query(..., ge=0)] rejects a negative
    position before the handler runs.  One session, as in
    [agregar_vuelo]. *)
Definition insertar_vuelo_en_posicion (vuelo_data : VueloBase.t) (posicion : Z) : M Z :=
  if posicion <? 0 then raise (HTTPException 422)
  else
    try_except
      (n <- longitud ;;
       if posicion >? n then raise (HTTPException 400)
       else
         nuevo_vuelo <- db_crear vuelo_data ;;
         insertar_en_posicion nuevo_vuelo posicion ;;
         ret nuevo_vuelo)
      (λ _, raise (HTTPException 500)).

(** [GET /vuelos/total]. *)
Definition obtener_total_vuelos : M Z := longitud.

(** [GET /vuelos/proximo]: [if not vuelo: raise HTTPException(404)]. *)
Definition obtener_proximo_vuelo : M Z :=
  vuelo <- obtener_primero ;;
  match vuelo with
  | None => raise (HTTPException 404)
  | Some v => ret v
  end.

(** [GET /vuelos/ultimo]. *)
Definition obtener_ultimo_vuelo : M Z :=
  vuelo <- obtener_ultimo ;;
  match vuelo with
  | None => raise (HTTPException 404)
  | Some v => ret v
  end.

(** [DELETE /vuelos/extraer]; the [HTTPException] of the range check is
    raised inside the [try] and so reaches [except Exception] like any
    other. *)
Definition extraer_vuelo_de_posicion (posicion : Z) : M Z :=
  if posicion <? 0 then raise (HTTPException 422)
  else
    try_except
      (n <- longitud ;;
       if posicion >=? n then raise (HTTPException 400)
       else
         vuelo <- extraer_de_posicion posicion ;;
         ret vuelo)
      (λ _, raise (HTTPException 500)).

(** [GET /vuelos/lista]. *)
Definition listar_todos_los_vuelos (fuel : nat) : M (list Z) := listar_todos fuel.

(** [PATCH /vuelos/reordenar]: [except ValueError] comes first, then
    [except Exception]. *)
Definition reordenar_vuelos (fuel : nat) (orden_ids : list Z) : M (list Z) :=
  try_except
    (reordenar fuel orden_ids)
    (λ e, match e with
          | ValueError _ => raise (HTTPException 400)
          | _ => raise (HTTPException 500)
          end).

(** * Mission queues (tarea1): a queue per character kept in a table

    Shallow embedding of class [ColaMisiones] of [src/tarea1.py] and of the
    end points that only call it or repeat its query.

    - The database is the tables [misiones] and [misiones_personaje], each
      a list of rows in scan order; a session is opened per request, so an
      ORM object is the row it was loaded from.
    - The tables hold rows as this program writes them: every column has a
      value.  SQLite does not check the foreign keys, so a row of
      [misiones_personaje] may name a mission that has no row.
    - Keys are integers that SQLite can store (64 bits, [entero_sqlite]
      below); handed a greater one the driver raises [OverflowError] before
      anything is written, which is outside the model.  With such keys a
      commit fails only on a primary key that is already in the table.
    - [order_by(orden)] gives rows with the same [orden] in the order of
      their primary key, the order in which SQLite reads them through the
      index of the key; the properties that depend on the order are stated
      for rows with different [orden]. *)

Inductive EstadoMision := pendiente | completada.

(** A row of the table [misiones]. *)
Module Mision.
Record t := {
  id : Z;
  nombre : string;
  descripcion : string;
  experiencia : Z;
  estado : EstadoMision;
  fecha_creacion : Z
}.
End Mision.

(** A row of the table [misiones_personaje]; its primary key is the pair
    [(personaje_id, mision_id)]. *)
Module MisionPersonaje.
Record t := {
  personaje_id : Z;
  mision_id : Z;
  orden : Z
}.
End MisionPersonaje.

#[global] Instance MisionPersonaje_eq_dec : EqDecision MisionPersonaje.t.
Proof. solve_decision. Defined.

Record BD := {
  misiones : list Mision.t;
  misiones_personaje : list MisionPersonaje.t
}.

(** [query(MisionPersonaje).filter_by(personaje_id=personaje_id)]. *)
Definition filter_by (personaje_id : Z) (bd : BD) : list MisionPersonaje.t :=
  filter (λ r, MisionPersonaje.personaje_id r = personaje_id) (misiones_personaje bd).

(** [.order_by(MisionPersonaje.orden)]: by [orden], and by primary key
    among rows with the same [orden]. *)
Definition va_antes (r x : MisionPersonaje.t) : bool :=
  (MisionPersonaje.orden r <? MisionPersonaje.orden x) ||
  ((MisionPersonaje.orden r =? MisionPersonaje.orden x) &&
   ((MisionPersonaje.personaje_id r <? MisionPersonaje.personaje_id x) ||
    ((MisionPersonaje.personaje_id r =? MisionPersonaje.personaje_id x) &&
     (MisionPersonaje.mision_id r <=? MisionPersonaje.mision_id x)))).

Fixpoint insertar_por_orden (r : MisionPersonaje.t) (l : list MisionPersonaje.t) :
    list MisionPersonaje.t :=
  match l with
  | [] => [r]
  | x :: l' =>
      if va_antes r x then r :: l
      else x :: insertar_por_orden r l'
  end.

Definition order_by (l : list MisionPersonaje.t) : list MisionPersonaje.t :=
  foldr insertar_por_orden [] l.

(** [query(Mision).get(mision_id)]. *)
Definition query_get (mision_id : Z) (bd : BD) : option Mision.t :=
  List.find (λ m, bool_decide (Mision.id m = mision_id)) (misiones bd).

(** [query(Mision).join(MisionPersonaje).filter(MisionPersonaje.personaje_id
    == personaje_id).order_by(MisionPersonaje.orden)]: the missions of the
    rows of the character, in order; a row without mission joins nothing. *)
Definition query_join (personaje_id : Z) (bd : BD) : list Mision.t :=
  omap (λ r, query_get (MisionPersonaje.mision_id r) bd)
       (order_by (filter_by personaje_id bd)).

(** The primary key of [misiones_personaje] is in use. *)
Definition clave_ocupada (personaje_id mision_id : Z) (bd : BD) : bool :=
  existsb (λ r, (MisionPersonaje.personaje_id r =? personaje_id) &&
                (MisionPersonaje.mision_id r =? mision_id))
          (misiones_personaje bd).

(** [mision.estado = e] on the object. *)
Definition con_estado (e : EstadoMision) (m : Mision.t) : Mision.t :=
  {| Mision.id := Mision.id m; Mision.nombre := Mision.nombre m;
     Mision.descripcion := Mision.descripcion m;
     Mision.experiencia := Mision.experiencia m;
     Mision.estado := e; Mision.fecha_creacion := Mision.fecha_creacion m |}.

(** [UPDATE misiones SET estado = e WHERE id = i]. *)
Definition actualizar_estado (i : Z) (e : EstadoMision) (ms : list Mision.t) :
    list Mision.t :=
  map (λ m, if decide (Mision.id m = i) then con_estado e m else m) ms.

(** [DELETE FROM misiones_personaje WHERE personaje_id = ... AND mision_id =
    ...]. *)
Definition borrar (primera : MisionPersonaje.t) (rs : list MisionPersonaje.t) :
    list MisionPersonaje.t :=
  filter (λ r, ¬ (MisionPersonaje.personaje_id r = MisionPersonaje.personaje_id primera ∧
                  MisionPersonaje.mision_id r = MisionPersonaje.mision_id primera)) rs.

(** The methods of [ColaMisiones]; [personaje_id] is [self.personaje_id],
    and the keys are integers that SQLite can store. *)
Module ColaMisiones.

Definition enqueue (personaje_id mision_id : Z) : BD → BD * Resultado unit :=
  λ bd,
    let total := Z.of_nat (length (filter_by personaje_id bd)) in
    let nueva := {| MisionPersonaje.personaje_id := personaje_id;
                    MisionPersonaje.mision_id := mision_id;
                    MisionPersonaje.orden := total + 1 |} in
    if clave_ocupada personaje_id mision_id bd then (bd, Raise SQLAlchemyError)
    else
      ({| misiones := misiones bd;
          misiones_personaje := misiones_personaje bd ++ [nueva] |}, Ok tt).

Definition dequeue (personaje_id : Z) : BD → BD * Resultado (option Mision.t) :=
  λ bd,
    match head (order_by (filter_by personaje_id bd)) with
    | Some primera =>
        match query_get (MisionPersonaje.mision_id primera) bd with
        | Some mision =>
            ({| misiones := actualizar_estado (Mision.id mision) completada (misiones bd);
                misiones_personaje := borrar primera (misiones_personaje bd) |},
             Ok (Some (con_estado completada mision)))
        | None => (bd, Raise AttributeError)
        end
    | None => (bd, Ok None)
    end.

Definition first (personaje_id : Z) : BD → BD * Resultado (option Mision.t) :=
  λ bd, (bd, Ok (head (query_join personaje_id bd))).


Definition size (personaje_id : Z) : BD → BD * Resultado Z :=
  λ bd, (bd, Ok (Z.of_nat (length (filter_by personaje_id bd)))).

End ColaMisiones.


(** [GET /personajes/{personaje_id}/misiones]; no two rows of a character
    name the same mission, so [all()] has no duplicate to drop. *)
Definition listar_misiones (personaje_id : Z) : BD → BD * Resultado (list Mision.t) :=
  λ bd, (bd, Ok (query_join personaje_id bd)).


(** * Vocabulary of the properties *)

(** ** What the writes leave in the session *)

(** The session after one call of [_actualizar_bd], and what it returns. *)
Definition tras_commit (vuelo : Z) (a g : option Z) (b : Session) : Session :=
  match fallos b with
  | true :: resto => {| filas := filas b; fallos := resto |}
  | _ => {| filas := actualizar_fila vuelo (asignar a g) (filas b);
            fallos := tail (fallos b) |}
  end.

Definition commit_ok (b : Session) : bool :=
  match fallos b with
  | true :: _ => false
  | _ => true
  end.

(** ** Chains of nodes *)

(** The address a segment starts with, [n] when it is empty; the address it
    ends with, [p] when it is empty. *)
Definition primera (cs : list (dir * Z)) (n : option dir) : option dir :=
  match cs with
  | [] => n
  | c :: _ => Some c.1
  end.

Definition ultima (p : option dir) (cs : list (dir * Z)) : option dir :=
  match last cs with
  | Some c => Some c.1
  | None => p
  end.

(** [seg h p cs n]: the nodes at the addresses of [cs] hold the flights of
    [cs] and are linked to each other in that order, the first one back to
    [p] and the last one on to [n]. *)
Fixpoint seg (h : gmap dir Nodo.t) (p : option dir) (cs : list (dir * Z))
    (n : option dir) : Prop :=
  match cs with
  | [] => True
  | c :: cs' =>
      h !! c.1 = Some {| Nodo.vuelo := c.2; Nodo.anterior := p;
                         Nodo.siguiente := primera cs' n |} ∧
      seg h (Some c.1) cs' n
  end.

(** The engine holds the chain [cs]. *)
Record cadena (s : Estado) (cs : list (dir * Z)) : Prop := {
  cad_seg : seg (nodos s) None cs None;
  cad_cabeza : cabeza s = primera cs None;
  cad_cola : cola s = ultima None cs;
  cad_size : size s = Z.of_nat (length cs);
  cad_nodup : NoDup cs.*1;
  cad_libre : ∀ d, is_Some (nodos s !! d) → (d < libre s)%nat
}.

(** The session after the writes of an insertion behind the chain [cs],
    in front of it, and between the flights [a] and [c]. *)
Definition sesion_al_final (v : Z) (cs : list (dir * Z)) (b : Session) : Session :=
  match last cs with
  | None => tras_commit v None None b
  | Some c => tras_commit c.2 None (Some v) (tras_commit v (Some c.2) None b)
  end.

Definition sesion_al_frente (v : Z) (cs : list (dir * Z)) (b : Session) : Session :=
  match cs with
  | [] => tras_commit v None None b
  | c :: _ => tras_commit c.2 (Some v) None (tras_commit v None (Some c.2) b)
  end.

Definition sesion_en_medio (v a c : Z) (b : Session) : Session :=
  tras_commit c (Some v) None
    (tras_commit a None (Some v)
       (tras_commit v (Some a) (Some c) b)).

(** The dictionary built by the first loop of [reordenar]. *)
Definition recogidos (cs : list (dir * Z)) (vuelos : gmap Z Z) : gmap Z Z :=
  foldl (λ m c, <[c.2 := c.2]> m) vuelos cs.

(** ** Calls of the mutating methods *)

Inductive Operacion :=
  | InsertarAlFrente (vuelo : Z)
  | InsertarAlFinal (vuelo : Z)
  | InsertarEnPosicion (vuelo posicion : Z)
  | ExtraerDePosicion (posicion : Z)
  | Reordenar (orden_ids : list Z).

Inductive Respuesta :=
  | UnVuelo (v : Z)
  | VariosVuelos (vs : list Z).

(** Running a call; a flight is answered as its key. *)
Definition ejecutar (fuel : nat) (op : Operacion) : M Respuesta :=
  match op with
  | InsertarAlFrente v => r <- insertar_al_frente v ;; ret (UnVuelo r)
  | InsertarAlFinal v => r <- insertar_al_final v ;; ret (UnVuelo r)
  | InsertarEnPosicion v p => r <- insertar_en_posicion v p ;; ret (UnVuelo r)
  | ExtraerDePosicion p => r <- extraer_de_posicion p ;; ret (UnVuelo r)
  | Reordenar ids => r <- reordenar fuel ids ;; ret (VariosVuelos r)
  end.

(** The states the engine can be in: built on some table, then changed by
    calls of the mutating methods, while the table is also written from
    outside the engine (the end points create rows through a session of
    their own). *)
Inductive alcanzable : Estado → Prop :=
  | alcanzable_init fuel b s :
      ListaVuelos_init fuel b = (s, Ok tt) → alcanzable s
  | alcanzable_paso fuel op s :
      alcanzable s → size s ≤ Z.of_nat fuel → alcanzable (ejecutar fuel op s).1
  | alcanzable_tabla b s :
      alcanzable s → alcanzable (con_session b s).

(** The arguments that the methods reject, and the message of each. *)
Definition invalida (s : Estado) (cs : list (dir * Z)) (op : Operacion) : Prop :=
  match op with
  | InsertarAlFrente _ | InsertarAlFinal _ => False
  | InsertarEnPosicion _ p => p < 0 ∨ p > size s
  | ExtraerDePosicion p => p < 0 ∨ p > size s - 1
  | Reordenar ids =>
      Z.of_nat (length ids) ≠ size s ∨ ∃ i, i ∈ ids ∧ i ∉ cs.*2
  end.

(** The message of the check that rejects [op]. *)
Definition mensaje (s : Estado) (op : Operacion) : Mensaje :=
  match op with
  | InsertarEnPosicion _ p => PosicionFueraDeRango p (size s)
  | ExtraerDePosicion p => PosicionFueraDeRango p (size s - 1)
  | Reordenar ids =>
      if Z.of_nat (length ids) =? size s then IdsNoExisten else CantidadNoCoincide
  | _ => CantidadNoCoincide
  end.

(** ** Some states *)

(** The engine on an empty table. *)
Definition tabla_vacia : Session := {| filas := []; fallos := [] |}.

Definition vacia : Estado := (ListaVuelos_init 0 tabla_vacia).1.

(** A row with the data the examples use. *)
Definition fila_ejemplo (i : Z) (c : string) (a g : option Z) : Vuelo.t :=
  {| Vuelo.id := i; Vuelo.codigo := c; Vuelo.estado := PROGRAMADO; Vuelo.hora := 0;
     Vuelo.origen := "BOG"; Vuelo.destino := "MDE"; Vuelo.posicion := None;
     Vuelo.anterior_id := a; Vuelo.siguiente_id := g |}.

(** A queue of two flights, 1 then 2, and the table in step with it: the
    engine built on that table. *)
Definition dos_vuelos : Estado :=
  {| nodos :=
       <[0%nat := {| Nodo.vuelo := 1; Nodo.anterior := None; Nodo.siguiente := Some 1%nat |}]>
         (<[1%nat := {| Nodo.vuelo := 2; Nodo.anterior := Some 0%nat; Nodo.siguiente := None |}]> ∅);
     libre := 2%nat;
     cabeza := Some 0%nat;
     cola := Some 1%nat;
     size := 2;
     session :=
       {| filas := [fila_ejemplo 1 "AV1" None (Some 2); fila_ejemplo 2 "AV2" (Some 1) None];
          fallos := [] |} |}.

(** ** Chains of rows *)

(** The row with primary key [i]. *)
Definition buscar (i : Z) (fs : list Vuelo.t) : option Vuelo.t :=
  List.find (λ v, bool_decide (Vuelo.id v = i)) fs.

(** The link fields of the row with key [i]. *)
Definition enlaces (fs : list Vuelo.t) (i : Z) : option (option Z * option Z) :=
  (λ r, (Vuelo.anterior_id r, Vuelo.siguiente_id r)) <$> buscar i fs.

(** The key a run of rows starts with, [n] when it is empty; the key it
    ends with, [p] when it is empty. *)
Definition primer_id (vs : list Z) (n : option Z) : option Z :=
  match vs with
  | [] => n
  | v :: _ => Some v
  end.


(** [segbd fs p vs n]: the rows of the flights [vs] point at each other in
    that order, the first one back to [p] and the last one on to [n]. *)
Fixpoint segbd (fs : list Vuelo.t) (p : option Z) (vs : list Z) (n : option Z) : Prop :=
  match vs with
  | [] => True
  | v :: vs' =>
      enlaces fs v = Some (p, primer_id vs' n) ∧ segbd fs (Some v) vs' n
  end.


(** The state right after [db_crear] has added the row of [vd]. *)
Definition creado (vd : VueloBase.t) (s : Estado) : Estado :=
  con_session
    {| filas := filas (session s) ++ [nueva_fila vd (proximo_id (filas (session s)))];
       fallos := [] |} s.

(** Same keys and same codes, row by row. *)
Definition mismos_datos (fs fs' : list Vuelo.t) : Prop :=
  map Vuelo.id fs = map Vuelo.id fs' ∧ map Vuelo.codigo fs = map Vuelo.codigo fs'.

(** ** Rebuilding *)

(** The row [_cargar_desde_bd] starts from: the first one without
    [anterior_id], else the first one. *)
Definition cabeza_elegida (primero : Vuelo.t) (vuelos : list Vuelo.t) : Vuelo.t :=
  match List.find (λ v, bool_decide (Vuelo.anterior_id v = None)) vuelos with
  | Some v => v
  | None => primero
  end.

(** The engine when the walk starts: one node, for the flight [v]. *)
Definition con_primer_nodo (b : Session) (v : Z) : Estado :=
  {| nodos := <[O := {| Nodo.vuelo := v; Nodo.anterior := None; Nodo.siguiente := None |}]> ∅;
     libre := 1%nat;
     cabeza := Some O;
     cola := None;
     size := 1;
     session := b |}.

(** ** Requests that create and queue a flight *)

Inductive Peticion :=
  | Agregar (vuelo_data : VueloBase.t)
  | InsertarEn (vuelo_data : VueloBase.t) (posicion : Z).

(** The state a request leaves, whatever it answers. *)
Definition atender (s : Estado) (p : Peticion) : Estado :=
  match p with
  | Agregar vd => (agregar_vuelo vd s).1
  | InsertarEn vd posicion => (insertar_vuelo_en_posicion vd posicion s).1
  end.

(** A request body with the data the examples use. *)
Definition datos (c : string) (e : EstadoVuelo) : VueloBase.t :=
  {| VueloBase.codigo := c; VueloBase.estado := e; VueloBase.hora := 0;
     VueloBase.origen := "BOG"; VueloBase.destino := "MDE" |}.

(** [POST /vuelos] once for each element of [vds]. *)
Fixpoint agregar_todos (vds : list VueloBase.t) : M unit :=
  match vds with
  | [] => ret tt
  | vd :: resto => agregar_vuelo vd ;; agregar_todos resto
  end.

(** Flight [k] goes in front of the queue when it is an emergency and
    behind it otherwise, then flight [k + 1], and so on. *)
Fixpoint orden_esperado (k : Z) (vds : list VueloBase.t) (vs : list Z) : list Z :=
  match vds with
  | [] => vs
  | vd :: resto =>
      orden_esperado (k + 1) resto
        (if decide (VueloBase.estado vd = EMERGENCIA) then k :: vs else vs ++ [k])
  end.

(** ** Independence from the session *)

(** The engine without its session. *)
Definition memoria (s : Estado) : gmap dir Nodo.t * dir * option dir * option dir * Z :=
  (nodos s, libre s, cabeza s, cola s, size s).

(** [c] answers and touches the memory in the same way on two states that
    differ in the session only. *)
Definition respeta {A} (c : M A) : Prop :=
  ∀ s1 s2, memoria s1 = memoria s2 →
    (c s1).2 = (c s2).2 ∧ memoria (c s1).1 = memoria (c s2).1.

(** ** What the engine does to the rows *)

(** A row before and after: the same key and data, and a link that was set
    is still set. *)
Definition fila_evoluciona (r r' : Vuelo.t) : Prop :=
  con_enlaces None None r' = con_enlaces None None r ∧
  (is_Some (Vuelo.anterior_id r) → is_Some (Vuelo.anterior_id r')) ∧
  (is_Some (Vuelo.siguiente_id r) → is_Some (Vuelo.siguiente_id r')).

(** Row by row, in scan order. *)
Definition tabla_evoluciona (b b' : Session) : Prop :=
  Forall2 fila_evoluciona (filas b) (filas b').

(** Nothing was written: the same rows, and no failing commit to come if
    there was none. *)
Definition mismas_filas (b b' : Session) : Prop :=
  filas b' = filas b ∧ (fallos b = [] → fallos b' = []).

(** [c] takes the session to one that [R] relates it to, however it ends. *)
Definition conserva (R : Session → Session → Prop) {A} (c : M A) : Prop :=
  ∀ s, R (session s) (session (c s).1).

(** The flights a call hands to the engine. *)
Definition vuelos_de (op : Operacion) : list Z :=
  match op with
  | InsertarAlFrente v | InsertarAlFinal v | InsertarEnPosicion v _ => [v]
  | ExtraerDePosicion _ | Reordenar _ => []
  end.

(** Every flight that a node holds or that [op] hands over has a row. *)
Definition con_filas (s : Estado) (op : Operacion) : Prop :=
  (∀ d n, nodos s !! d = Some n → Nodo.vuelo n ∈ map Vuelo.id (filas (session s))) ∧
  (∀ v, v ∈ vuelos_de op → v ∈ map Vuelo.id (filas (session s))).

(** ** Tables that hold a queue *)

(** The table [b] holds the queue [vs]: the links of the rows of [vs] spell
    [vs], from the only row of the table without [anterior_id] to a row
    without [siguiente_id]; the keys of the table are different, those of
    [vs] positive, and no commit to come fails.  The table may have other
    rows, each with an [anterior_id]. *)
Record tabla_con_cola (b : Session) (vs : list Z) : Prop := {
  tc_fallos : fallos b = [];
  tc_claves : NoDup (map Vuelo.id (filas b));
  tc_no_vacia : vs ≠ [];
  tc_nodup : NoDup vs;
  tc_positivos : ∀ v, v ∈ vs → 0 < v;
  tc_enlaces : segbd (filas b) None vs None;
  tc_cabeza : ∀ r, r ∈ filas b → Vuelo.anterior_id r = None → head vs = Some (Vuelo.id r)
}.




(** ** More states *)

(** Two queued flights, a third row in the table, and the next two commits
    failing. *)
Definition con_commits_fallidos : Estado :=
  con_session
    {| filas := filas (session dos_vuelos) ++ [fila_ejemplo 3 "AV3" None None];
       fallos := [true; true] |}
    dos_vuelos.

(** The table after queueing two flights and reordering them as 2, 1: no
    link is absent and the successors go round. *)
Definition tabla_ciclica : Session :=
  {| filas := [fila_ejemplo 1 "AV1" (Some 2) (Some 2); fila_ejemplo 2 "AV2" (Some 1) (Some 1)];
     fallos := [] |}.

(** The table after queueing three flights and extracting the middle one:
    rows 1 and 3 point at each other and row 2 keeps its links. *)
Definition tabla_tras_extraer : Session :=
  {| filas := [fila_ejemplo 1 "AV1" None (Some 3); fila_ejemplo 2 "AV2" (Some 1) (Some 3);
               fila_ejemplo 3 "AV3" (Some 1) None];
     fallos := [] |}.

(** A table that holds the queue 1, 2, 3, 4. *)
Definition tabla_cuatro : Session :=
  {| filas := [fila_ejemplo 1 "AV1" None (Some 2); fila_ejemplo 2 "AV2" (Some 1) (Some 3);
               fila_ejemplo 3 "AV3" (Some 2) (Some 4); fila_ejemplo 4 "AV4" (Some 3) None];
     fallos := [] |}.

(** ** Mission queues *)

(** The integers SQLite stores: 64 bits, signed. *)
Definition entero_sqlite (z : Z) : Prop := - 2 ^ 63 ≤ z < 2 ^ 63.


(** [dequeue] [n] times, up to the first that raises; the answers in
    order. *)
Fixpoint desencolar (personaje_id : Z) (n : nat) (bd : BD) :
    BD * Resultado (list (option Mision.t)) :=
  match n with
  | O => (bd, Ok [])
  | S n' =>
      match ColaMisiones.dequeue personaje_id bd with
      | (bd', Ok m) =>
          match desencolar personaje_id n' bd' with
          | (bd'', Ok ms) => (bd'', Ok (m :: ms))
          | r => r
          end
      | (bd', Raise e) => (bd', Raise e)
      | (bd', Agotado) => (bd', Agotado)
      end
  end.


(** What [dequeue] does to a mission row when it completes mission [i]. *)
Definition completar (i : Z) (m : Mision.t) : Mision.t :=
  if decide (Mision.id m = i) then con_estado completada m else m.

(** A mission row with the data the examples use. *)
Definition mision_ejemplo (i : Z) : Mision.t :=
  {| Mision.id := i; Mision.nombre := "M"; Mision.descripcion := "D";
     Mision.experiencia := 10; Mision.estado := pendiente; Mision.fecha_creacion := 0 |}.

(** Four missions and no queue. *)
Definition bd_ejemplo : BD :=
  {| misiones := [mision_ejemplo 1; mision_ejemplo 2; mision_ejemplo 3; mision_ejemplo 4];
     misiones_personaje := [] |}.

(** Character 7 with missions 2 and 3 queued, 3 ahead of 2. *)
Definition bd_con_cola : BD :=
  {| misiones := misiones bd_ejemplo;
     misiones_personaje :=
       [{| MisionPersonaje.personaje_id := 7; MisionPersonaje.mision_id := 2;
           MisionPersonaje.orden := 5 |};
        {| MisionPersonaje.personaje_id := 7; MisionPersonaje.mision_id := 3;
           MisionPersonaje.orden := 4 |}] |}.

(** * Properties *)

(** ** Running the primitives *)

Lemma bind_ok {A B} (c : M A) (k : A → M B) s s' a :
  c s = (s', Ok a) → bind c k s = k a s'.
Proof. intros H. unfold bind. by rewrite H. Qed.

Lemma bind_raise {A B} (c : M A) (k : A → M B) s s' e :
  c s = (s', Raise e) → bind c k s = (s', Raise e).
Proof. intros H. unfold bind. by rewrite H. Qed.

Lemma bind_agotado {A B} (c : M A) (k : A → M B) s s' :
  c s = (s', Agotado) → bind c k s = (s', Agotado).
Proof. intros H. unfold bind. by rewrite H. Qed.

Lemma attr_ok {A} (f : Nodo.t → A) d n s :
  nodos s !! d = Some n → attr f (Some d) s = (s, Ok (f n)).
Proof. intros H. unfold attr, bind, nodo, ret. by rewrite H. Qed.

Lemma poner_anterior_ok d x n s :
  nodos s !! d = Some n →
  poner_anterior (Some d) x s =
    (con_nodos (<[d := {| Nodo.vuelo := Nodo.vuelo n; Nodo.anterior := x;
                          Nodo.siguiente := Nodo.siguiente n |}]> (nodos s)) s, Ok tt).
Proof. intros H. unfold poner_anterior. by rewrite H. Qed.

Lemma poner_siguiente_ok d x n s :
  nodos s !! d = Some n →
  poner_siguiente (Some d) x s =
    (con_nodos (<[d := {| Nodo.vuelo := Nodo.vuelo n; Nodo.anterior := Nodo.anterior n;
                          Nodo.siguiente := x |}]> (nodos s)) s, Ok tt).
Proof. intros H. unfold poner_siguiente. by rewrite H. Qed.

Lemma _actualizar_bd_eq vuelo a g s :
  _actualizar_bd vuelo a g s =
    (con_session (tras_commit vuelo a g (session s)) s, Ok (commit_ok (session s))).
Proof.
  unfold _actualizar_bd, tras_commit, commit_ok, bind, leer, modificar, ret.
  destruct (fallos (session s)) as [|[] ?]; reflexivity.
Qed.

Lemma tras_commit_sin_fallos vuelo a g b :
  fallos b = [] →
  tras_commit vuelo a g b =
    {| filas := actualizar_fila vuelo (asignar a g) (filas b); fallos := [] |}.
Proof. intros H. unfold tras_commit. by rewrite H. Qed.

(** ** The chain in the heap *)

Lemma ultima_snoc p cs c : ultima p (cs ++ [c]) = Some c.1.
Proof. unfold ultima. by rewrite last_snoc. Qed.

Lemma ultima_cons p c cs : ultima p (c :: cs) = ultima (Some c.1) cs.
Proof.
  unfold ultima. rewrite last_cons. by destruct (last cs).
Qed.

Lemma primera_app cs1 cs2 n : primera (cs1 ++ cs2) n = primera cs1 (primera cs2 n).
Proof. by destruct cs1. Qed.

Lemma seg_app h p cs1 cs2 n :
  seg h p (cs1 ++ cs2) n ↔ seg h p cs1 (primera cs2 n) ∧ seg h (ultima p cs1) cs2 n.
Proof.
  revert p. induction cs1 as [|c cs1 IH]; intros p; simpl.
  - unfold ultima; simpl. tauto.
  - rewrite IH, primera_app, ultima_cons. tauto.
Qed.

Lemma seg_marco h h' p cs n :
  (∀ d, d ∈ cs.*1 → h' !! d = h !! d) → seg h p cs n → seg h' p cs n.
Proof.
  revert p. induction cs as [|c cs IH]; intros p Hm; simpl; [done|].
  intros [H1 H2]. split.
  - rewrite Hm; [done|]. rewrite fmap_cons. apply list_elem_of_here.
  - apply IH; [|done]. intros d Hd. apply Hm. rewrite fmap_cons.
    by apply list_elem_of_further.
Qed.

Lemma seg_elem h p cs n c :
  seg h p cs n → c ∈ cs → ∃ x, h !! c.1 = Some x ∧ Nodo.vuelo x = c.2.
Proof.
  revert p. induction cs as [|c' cs IH]; intros p Hs Hc.
  - by apply not_elem_of_nil in Hc.
  - destruct Hs as [H1 H2]. apply elem_of_cons in Hc as [->|Hc]; [eauto|].
    by eapply IH.
Qed.

Lemma seg_menor s cs p n d :
  (∀ d, is_Some (nodos s !! d) → (d < libre s)%nat) →
  seg (nodos s) p cs n → d ∈ cs.*1 → (d < libre s)%nat.
Proof.
  intros Hl Hs Hd. apply list_elem_of_fmap in Hd as (c & -> & Hc).
  destruct (seg_elem _ _ _ _ _ Hs Hc) as (x & Hx & _). apply Hl. eauto.
Qed.

Lemma libre_fresca s cs p n :
  (∀ d, is_Some (nodos s !! d) → (d < libre s)%nat) →
  seg (nodos s) p cs n → libre s ∉ cs.*1.
Proof.
  intros Hf Hs Hin. pose proof (seg_menor _ _ _ _ _ Hf Hs Hin). lia.
Qed.

Lemma NoDup_en_medio {A} (l1 l2 : list A) x :
  NoDup (l1 ++ l2) → x ∉ l1 ++ l2 → NoDup (l1 ++ x :: l2).
Proof.
  intros Hn Hx. rewrite <- Permutation_middle. by apply NoDup_cons.
Qed.

(** What is left to show after an insertion between [cs1] and [cs2]. *)
Lemma cadena_insertada s s' cs1 cs2 v :
  cadena s (cs1 ++ cs2) →
  seg (nodos s') None (cs1 ++ (libre s, v) :: cs2) None →
  cabeza s' = primera (cs1 ++ (libre s, v) :: cs2) None →
  cola s' = ultima None (cs1 ++ (libre s, v) :: cs2) →
  size s' = size s + 1 →
  libre s' = S (libre s) →
  (∀ d, is_Some (nodos s' !! d) → d = libre s ∨ is_Some (nodos s !! d)) →
  cadena s' (cs1 ++ (libre s, v) :: cs2).
Proof.
  intros [Hs Hc Hl Hz Hn Hf] Hs' Hc' Hl' Hz' Hlib Hdom.
  split; try done.
  - rewrite Hz', Hz, !length_app. cbn. lia.
  - rewrite fmap_app, fmap_cons. cbn. apply NoDup_en_medio.
    + by rewrite <- fmap_app.
    + rewrite <- fmap_app. by eapply libre_fresca.
  - intros d Hd. rewrite Hlib. destruct (Hdom d Hd) as [->|H]; [lia|].
    apply Hf in H. lia.
Qed.

#[local] Arguments attr : simpl never.
#[local] Arguments poner_anterior : simpl never.
#[local] Arguments poner_siguiente : simpl never.
#[local] Arguments _actualizar_bd : simpl never.

Ltac busca :=
  cbn;
  repeat first
    [ rewrite lookup_insert_eq
    | rewrite lookup_insert_ne by (try lia; congruence) ];
  try eassumption; try reflexivity.

Ltac paso :=
  first
    [ rewrite _actualizar_bd_eq
    | erewrite attr_ok by busca
    | erewrite poner_anterior_ok by busca
    | erewrite poner_siguiente_ok by busca ];
  cbn.

Ltac zbool :=
  rewrite ?Z.gtb_ltb, ?Z.geb_leb;
  first [ apply Z.ltb_ge | apply Z.ltb_lt | apply Z.leb_le | apply Z.leb_gt
        | apply Z.eqb_eq | apply Z.eqb_neq ];
  lia.

Ltac decide_bool t b :=
  let H := fresh in assert (t = b) as H by zbool; rewrite H; clear H.

Ltac dominio H :=
  repeat (apply lookup_insert_is_Some in H as [<-|[_ H]]; [by eauto|]);
  by eauto.

Lemma cadena_ext s s' cs :
  cadena s cs →
  nodos s' = nodos s → libre s' = libre s → cabeza s' = cabeza s →
  cola s' = cola s → size s' = size s →
  cadena s' cs.
Proof.
  intros [Hs Hc Hl Hz Hn Hf] E1 E2 E3 E4 E5.
  split; rewrite ?E1, ?E2, ?E3, ?E4, ?E5; done.
Qed.

(** Hooking a new node for [v] behind the last node [c] of the chain. *)
Lemma cadena_enganchar s cs c v b :
  cadena s (cs ++ [c]) →
  cadena
    {| nodos :=
         <[c.1 := {| Nodo.vuelo := c.2; Nodo.anterior := ultima None cs;
                     Nodo.siguiente := Some (libre s) |}]>
           (<[libre s := {| Nodo.vuelo := v; Nodo.anterior := Some c.1;
                            Nodo.siguiente := None |}]>
              (<[libre s := {| Nodo.vuelo := v; Nodo.anterior := None;
                               Nodo.siguiente := None |}]> (nodos s)));
       libre := S (libre s);
       cabeza := cabeza s;
       cola := Some (libre s);
       size := size s + 1;
       session := b |}
    ((cs ++ [c]) ++ [(libre s, v)]).
Proof.
  intros Hcad. pose proof Hcad as [Hs Hc Hl Hz Hn Hf].
  pose proof (libre_fresca _ _ _ _ Hf Hs) as Hfr.
  apply seg_app in Hs as [Hs1 [Hs2 _]]. cbn in Hs2.
  rewrite fmap_app in Hn, Hfr. cbn in Hn, Hfr.
  apply NoDup_app in Hn as (Hn1 & Hn2 & _).
  assert (c.1 ≠ libre s) as Hne.
  { intros E. apply Hfr. rewrite <- E. apply elem_of_app. right. apply list_elem_of_here. }
  apply (cadena_insertada s _ (cs ++ [c]) []); rewrite ?app_nil_r; try done; cbn.
  - apply seg_app. split; [apply seg_app; split|].
    + eapply seg_marco; [|exact Hs1]. intros d Hd.
      rewrite !lookup_insert_ne; [done| | |].
      * intros <-. apply Hfr, elem_of_app. by left.
      * intros <-. apply Hfr, elem_of_app. by left.
      * intros <-. apply (Hn2 _ Hd), list_elem_of_here.
    + cbn. split; [|done]. by rewrite lookup_insert_eq.
    + rewrite ultima_snoc. cbn. split; [|done].
      rewrite lookup_insert_ne by done. by rewrite lookup_insert_eq.
  - rewrite Hc. by rewrite !primera_app.
  - by rewrite ultima_snoc.
  - intros d H. dominio H.
Qed.

Lemma insertar_al_final_cadena v s cs :
  cadena s cs →
  ∃ s', insertar_al_final v s = (s', Ok v) ∧
        cadena s' (cs ++ [(libre s, v)]) ∧
        session s' = sesion_al_final v cs (session s).
Proof.
  intros Hcad. pose proof Hcad as [Hs Hc Hl Hz Hn Hf].
  destruct cs as [|c cs _] using rev_ind.
  - unfold insertar_al_final, bind. cbn. rewrite Hl. cbn.
    paso. eexists. split; [reflexivity|]. split; [|reflexivity].
    apply (cadena_insertada s _ [] []); try done; cbn.
    + split; [|done]. by rewrite lookup_insert_eq.
    + intros d H. dominio H.
  - rewrite ultima_snoc in Hl.
    apply seg_app in Hs as [Hs1 [Hs2 _]]. cbn in Hs2.
    assert (c.1 ≠ libre s) as Hne.
    { intros E. assert (c.1 < libre s)%nat; [|lia]. apply Hf. eauto. }
    unfold insertar_al_final, bind. cbn. rewrite Hl. cbn.
    repeat paso. eexists. split; [reflexivity|]. split.
    + eapply cadena_ext; [exact (cadena_enganchar s cs c v (session s) Hcad)|done..].
    + cbn. unfold sesion_al_final. by rewrite last_snoc.
Qed.

Lemma insertar_al_frente_cadena v s cs :
  cadena s cs →
  ∃ s', insertar_al_frente v s = (s', Ok v) ∧
        cadena s' ((libre s, v) :: cs) ∧
        session s' = sesion_al_frente v cs (session s).
Proof.
  intros Hcad. pose proof Hcad as [Hs Hc Hl Hz Hn Hf].
  pose proof (libre_fresca _ _ _ _ Hf Hs) as Hfr.
  destruct cs as [|c cs].
  - unfold insertar_al_frente, bind. cbn. rewrite Hc. cbn.
    paso. eexists. split; [reflexivity|]. split; [|reflexivity].
    apply (cadena_insertada s _ [] []); try done; cbn.
    + split; [|done]. by rewrite lookup_insert_eq.
    + intros d H. dominio H.
  - destruct Hs as [Hs1 Hs2]. cbn in Hc.
    rewrite fmap_cons in Hn, Hfr. apply NoDup_cons in Hn as [Hn1 Hn2].
    assert (c.1 ≠ libre s) as Hne.
    { intros E. apply Hfr. rewrite <- E. apply list_elem_of_here. }
    unfold insertar_al_frente, bind. cbn. rewrite Hc. cbn.
    repeat paso. eexists. split; [reflexivity|]. split; [|reflexivity].
    apply (cadena_insertada s _ [] (c :: cs)); try done; cbn.
    + split; [|split].
      * rewrite lookup_insert_ne by done. by rewrite lookup_insert_eq.
      * by rewrite lookup_insert_eq.
      * eapply seg_marco; [|exact Hs2]. intros d Hd.
        rewrite !lookup_insert_ne; [done| | |].
        -- intros <-. by apply Hfr, list_elem_of_further.
        -- intros <-. by apply Hfr, list_elem_of_further.
        -- by intros <-.
    + intros d H. dominio H.
Qed.

(** Walking [length cs1] links from the start of [cs1 ++ cs2] reaches the
    start of [cs2]. *)
Lemma avanzar_seg s p cs1 cs2 n :
  seg (nodos s) p (cs1 ++ cs2) n →
  avanzar (length cs1) (primera (cs1 ++ cs2) n) s = (s, Ok (primera cs2 n)).
Proof.
  revert p. induction cs1 as [|c cs1 IH]; intros p Hs; [done|].
  destruct Hs as [H1 H2]. cbn. unfold bind.
  erewrite attr_ok by exact H1. cbn. by eapply IH.
Qed.

Lemma insertar_en_medio_cadena v s cs1 a c cs2 :
  cadena s (cs1 ++ a :: c :: cs2) →
  ∃ s', insertar_en_posicion v (Z.of_nat (S (length cs1))) s = (s', Ok v) ∧
        cadena s' (cs1 ++ a :: (libre s, v) :: c :: cs2) ∧
        session s' = sesion_en_medio v a.2 c.2 (session s).
Proof.
  intros Hcad. pose proof Hcad as [Hs Hc Hl Hz Hn Hf].
  pose proof (libre_fresca _ _ _ _ Hf Hs) as Hfr.
  pose proof Hs as Hs0.
  replace (cs1 ++ a :: c :: cs2) with ((cs1 ++ [a]) ++ c :: cs2) in Hs0, Hcad
    by by rewrite <- app_assoc.
  apply seg_app in Hs as [Hs1 [Hsa [Hsc Hs2]]]. cbn in Hsa, Hsc.
  rewrite fmap_app, !fmap_cons in Hn, Hfr.
  apply NoDup_app in Hn as (Hn1 & Hn2 & Hn3).
  apply NoDup_cons in Hn3 as [Hn3 Hn4]. apply NoDup_cons in Hn4 as [Hn4 Hn5].
  assert (a.1 ≠ libre s) as Hnea.
  { intros E. apply Hfr. rewrite <- E. apply elem_of_app. right. apply list_elem_of_here. }
  assert (c.1 ≠ libre s) as Hnec.
  { intros E. apply Hfr. rewrite <- E. apply elem_of_app. right.
    apply list_elem_of_further, list_elem_of_here. }
  assert (a.1 ≠ c.1) as Hac.
  { intros E. apply Hn3. rewrite E. apply list_elem_of_here. }
  unfold insertar_en_posicion, bind. cbn -[Z.of_nat Z.to_nat].
  rewrite Hz. rewrite length_app. cbn -[Z.of_nat Z.to_nat].
  decide_bool (Z.of_nat (S (length cs1)) <? 0) false.
  decide_bool (Z.of_nat (S (length cs1)) >? Z.of_nat (length cs1 + S (S (length cs2)))) false.
  decide_bool (Z.of_nat (S (length cs1)) =? 0) false.
  decide_bool (Z.of_nat (S (length cs1)) =? Z.of_nat (length cs1 + S (S (length cs2)))) false.
  cbn -[Z.of_nat Z.to_nat]. rewrite Nat2Z.id.
  replace (S (length cs1)) with (length (cs1 ++ [a])) by (rewrite length_app; cbn; lia).
  rewrite Hc.
  replace (cs1 ++ a :: c :: cs2) with ((cs1 ++ [a]) ++ c :: cs2) by by rewrite <- app_assoc.
  erewrite avanzar_seg.
  2:{ cbn. eapply seg_marco; [|exact Hs0]. intros d Hd.
      rewrite lookup_insert_ne; [done|]. intros <-.
      apply Hfr. rewrite <- app_assoc in Hd. by rewrite fmap_app in Hd. }
  cbn. repeat paso. eexists. split; [reflexivity|]. split; [|reflexivity].
  rewrite <- app_assoc. cbn.
  replace (cs1 ++ a :: (libre s, v) :: c :: cs2)
    with ((cs1 ++ [a]) ++ (libre s, v) :: c :: cs2) by by rewrite <- app_assoc.
  apply (cadena_insertada s); try done; cbn.
  - apply seg_app. split; [apply seg_app; split|split; [|split]]; cbn.
    + eapply seg_marco; [|exact Hs1]. intros d Hd.
      rewrite !lookup_insert_ne; [done| | | | |].
      * intros <-. apply Hfr, elem_of_app. by left.
      * intros <-. apply Hfr, elem_of_app. by left.
      * intros <-. apply Hfr, elem_of_app. by left.
      * intros <-. apply (Hn2 _ Hd), list_elem_of_here.
      * intros <-. apply (Hn2 _ Hd), list_elem_of_further, list_elem_of_here.
    + split; [|done]. rewrite lookup_insert_ne by done. by rewrite lookup_insert_eq.
    + rewrite ultima_snoc. by repeat (rewrite lookup_insert_ne by done); rewrite lookup_insert_eq.
    + by rewrite lookup_insert_eq.
    + eapply seg_marco; [|exact Hs2]. intros d Hd.
      rewrite !lookup_insert_ne; [done| | | | |].
      * intros <-. apply Hfr, elem_of_app. right. by do 2 apply list_elem_of_further.
      * intros <-. apply Hfr, elem_of_app. right. by do 2 apply list_elem_of_further.
      * intros <-. apply Hfr, elem_of_app. right. by do 2 apply list_elem_of_further.
      * intros <-. apply Hn3. by apply list_elem_of_further.
      * by intros <-.
  - rewrite <- !app_assoc. by rewrite !primera_app.
  - rewrite Hl. unfold ultima. rewrite <- !app_assoc. cbn.
    rewrite !last_app. cbn. rewrite !last_cons. by destruct (last cs2).
  - intros d H. dominio H.
Qed.

Lemma cadena_con_session s cs b : cadena s cs → cadena (con_session b s) cs.
Proof. intros [Hs Hc Hl Hz Hn Hf]. by split. Qed.

Lemma listar_desde_seg fuel s p cs acc :
  seg (nodos s) p cs None → (length cs ≤ fuel)%nat →
  listar_desde fuel (primera cs None) acc s = (s, Ok (acc ++ cs.*2)).
Proof.
  revert fuel p acc. induction cs as [|c cs IH]; intros fuel p acc Hs Hfuel.
  - cbn. rewrite app_nil_r. by destruct fuel.
  - destruct fuel as [|fuel]; [cbn in Hfuel; lia|].
    destruct Hs as [H1 H2]. cbn. unfold bind.
    erewrite attr_ok by exact H1. erewrite attr_ok by exact H1. cbn.
    erewrite IH; [|exact H2|cbn in Hfuel; lia].
    by rewrite <- app_assoc.
Qed.

Lemma listar_todos_cadena fuel s cs :
  cadena s cs → (length cs ≤ fuel)%nat →
  listar_todos fuel s = (s, Ok cs.*2).
Proof.
  intros [Hs Hc _ _ _ _] Hfuel. unfold listar_todos, bind. cbn.
  rewrite Hc. by erewrite listar_desde_seg.
Qed.

Lemma recoger_seg fuel s p cs vuelos :
  seg (nodos s) p cs None → (length cs ≤ fuel)%nat →
  recoger fuel (primera cs None) vuelos s = (s, Ok (recogidos cs vuelos)).
Proof.
  revert fuel p vuelos. induction cs as [|c cs IH]; intros fuel p vuelos Hs Hfuel.
  - cbn. by destruct fuel.
  - destruct fuel as [|fuel]; [cbn in Hfuel; lia|].
    destruct Hs as [H1 H2]. cbn. unfold bind.
    erewrite attr_ok by exact H1. erewrite attr_ok by exact H1. cbn.
    erewrite IH; [done|exact H2|cbn in Hfuel; lia].
Qed.

Lemma recogidos_lookup cs vuelos i :
  recogidos cs vuelos !! i = if decide (i ∈ cs.*2) then Some i else vuelos !! i.
Proof.
  revert vuelos. induction cs as [|c cs IH]; intros vuelos; cbn.
  - case_decide as H; [|done]. by apply elem_of_nil in H.
  - unfold recogidos in IH. rewrite IH.
    destruct (decide (i ∈ cs.*2)) as [Hi|Hi].
    + rewrite decide_True; [done|]. by apply list_elem_of_further.
    + destruct (decide (c.2 = i)) as [<-|Hne].
      * rewrite lookup_insert_eq. rewrite decide_True; [done|]. apply list_elem_of_here.
      * rewrite lookup_insert_ne by done. rewrite decide_False; [done|].
        intros H. apply elem_of_cons in H as [?|?]; congruence.
Qed.

Lemma reinsertar_cadena vuelos ids s cs :
  cadena s cs →
  (∀ i, i ∈ ids → vuelos !! i = Some i) →
  ∃ s' cs', reinsertar vuelos ids s = (s', Ok tt) ∧
            cadena s' (cs ++ cs') ∧ cs'.*2 = ids.
Proof.
  revert s cs. induction ids as [|i ids IH]; intros s cs Hcad Hv.
  - exists s, []. rewrite app_nil_r. by split.
  - cbn. unfold elemento. rewrite (Hv i) by apply list_elem_of_here.
    unfold bind at 1. cbn.
    destruct (insertar_al_final_cadena i s cs Hcad) as (s1 & E1 & Hcad1 & _).
    unfold bind. rewrite E1.
    destruct (IH s1 _ Hcad1) as (s' & cs' & E' & Hcad' & Hids).
    { intros j Hj. apply Hv. by apply list_elem_of_further. }
    exists s', ((libre s, i) :: cs'). split; [done|]. split.
    + by rewrite <- app_assoc in Hcad'.
    + cbn. by rewrite Hids.
Qed.

Lemma cadena_vaciada s cs :
  cadena s cs → cadena (con_size 0 (con_cola None (con_cabeza None s))) [].
Proof.
  intros [Hs Hc Hl Hz Hn Hf]. split; try done. cbn. apply NoDup_nil_2.
Qed.

(** [reordenar] accepts every list of the right length whose elements are
    queued, and leaves a chain that follows it. *)
Lemma reordenar_cadena fuel ids s cs :
  cadena s cs →
  length ids = length cs →
  (∀ i, i ∈ ids → i ∈ cs.*2) →
  (length cs ≤ fuel)%nat →
  ∃ s' cs', reordenar fuel ids s = (s', Ok ids) ∧
            cadena s' cs' ∧ cs'.*2 = ids.
Proof.
  intros Hcad Hlen Hin Hfuel. pose proof Hcad as [Hs Hc Hl Hz Hn Hf].
  unfold reordenar, bind. cbn. rewrite Hz, Hlen, Z.eqb_refl. cbn.
  rewrite Hc. erewrite recoger_seg by done.
  assert (forallb (λ i, bool_decide (is_Some (recogidos cs ∅ !! i))) ids = true) as ->.
  { apply forallb_forall. intros i Hi. apply bool_decide_eq_true.
    rewrite recogidos_lookup. rewrite decide_True; [done|].
    by apply Hin, list_elem_of_In. }
  cbn.
  destruct (reinsertar_cadena (recogidos cs ∅) ids _ [] (cadena_vaciada _ _ Hcad))
    as (s' & cs' & E & Hcad' & Hids).
  { intros i Hi. rewrite recogidos_lookup. rewrite decide_True; [done|]. by apply Hin. }
  unfold poner_cabeza, poner_cola, poner_size, modificar. cbn.
  rewrite E. cbn in Hcad'.
  exists s', cs'. split; [|done].
  change (listar_todos fuel s' = (s', Ok ids)).
  rewrite (listar_todos_cadena fuel s' cs' Hcad'); [by rewrite Hids|].
  rewrite <- (length_fmap snd cs'), Hids. lia.
Qed.

(** ** The example states *)

Lemma cadena_vacia : cadena vacia [].
Proof.
  split; try done.
  - apply NoDup_nil_2.
  - intros d [x H]. cbn in H. by rewrite lookup_empty in H.
Qed.

Lemma dos_vuelos_reconstruida :
  ListaVuelos_init 1 (session dos_vuelos) = (dos_vuelos, Ok tt).
Proof. by vm_compute. Qed.

Lemma cadena_dos_vuelos : cadena dos_vuelos [(0%nat, 1); (1%nat, 2)].
Proof.
  split; try done.
  - cbn. apply NoDup_cons. split; [|apply NoDup_singleton].
    intros H. by apply list_elem_of_singleton in H.
  - intros d H. cbn in *.
    apply lookup_insert_is_Some in H as [<-|[_ H]]; [lia|].
    apply lookup_insert_is_Some in H as [<-|[_ [x H]]]; [lia|].
    by rewrite lookup_empty in H.
Qed.

(** ** Reordering *)



(** C10: [reordenar] only checks the length of the list and that each of
    its elements is queued.  Any such list is accepted, repeated ids
    included: the call returns the list, every position gets a node of its
    own ([cs'] has no repeated address) holding the flight listed there, and
    [listar_todos] gives the list. *)
Theorem reordenar_con_repetidos fuel s cs ids :
  cadena s cs →
  length ids = length cs →
  (∀ i, i ∈ ids → i ∈ cs.*2) →
  (length cs ≤ fuel)%nat →
  ∃ s' cs', reordenar fuel ids s = (s', Ok ids) ∧
            cadena s' cs' ∧ cs'.*2 = ids ∧
            listar_todos fuel s' = (s', Ok ids).
Proof.
  intros Hcad Hlen Hin Hfuel.
  destruct (reordenar_cadena fuel ids s cs Hcad Hlen Hin Hfuel)
    as (s' & cs' & E & Hcad' & Hids).
  exists s', cs'. split; [done|]. split; [done|]. split; [done|].
  rewrite (listar_todos_cadena fuel s' cs' Hcad'); [by rewrite Hids|].
  rewrite <- (length_fmap snd cs'), Hids. lia.
Qed.

Lemma reordenar_con_repetidos_witness :
  ∃ s' cs', reordenar 2 [1; 1] dos_vuelos = (s', Ok [1; 1]) ∧
            cadena s' cs' ∧ cs'.*2 = [1; 1] ∧
            listar_todos 2 s' = (s', Ok [1; 1]).
Proof.
  apply (reordenar_con_repetidos 2 dos_vuelos [(0%nat, 1); (1%nat, 2)] [1; 1]).
  - exact cadena_dos_vuelos.
  - reflexivity.
  - intros i Hi. cbn.
    apply elem_of_cons in Hi as [->|Hi]; [apply list_elem_of_here|].
    apply list_elem_of_singleton in Hi as ->. apply list_elem_of_here.
  - cbn. lia.
Defined.

(** ** Looking at the ends *)

(** C7, amended: on a queue holding [cs], [obtener_primero] and
    [obtener_ultimo] return the flight of the first and of the last node,
    and [None] (no exception) when there is none, which is exactly when
    [size] is 0; neither changes the state. *)
Theorem obtener_extremos s cs :
  cadena s cs →
  obtener_primero s = (s, Ok (head cs.*2)) ∧
  obtener_ultimo s = (s, Ok (last cs.*2)) ∧
  (size s = 0 ↔ cs = []).
Proof.
  intros [Hs Hc Hl Hz Hn Hf]. split; [|split].
  - unfold obtener_primero, bind. cbn. rewrite Hc.
    destruct cs as [|c cs]; [done|]. destruct Hs as [H1 _]. cbn.
    by erewrite attr_ok by exact H1.
  - unfold obtener_ultimo, bind. cbn. rewrite Hl.
    destruct cs as [|c cs _] using rev_ind; [done|].
    rewrite !ultima_snoc, fmap_snoc, last_snoc. cbn.
    apply seg_app in Hs as [_ [H1 _]].
    by erewrite attr_ok by exact H1.
  - rewrite Hz. destruct cs; cbn; [done|]. split; [lia|done].
Qed.

Lemma obtener_extremos_witness :
  obtener_primero dos_vuelos = (dos_vuelos, Ok (Some 1)) ∧
  obtener_ultimo dos_vuelos = (dos_vuelos, Ok (Some 2)) ∧
  (size dos_vuelos = 0 ↔ [(0%nat, 1); (1%nat, 2)] = []).
Proof.
  apply (obtener_extremos dos_vuelos [(0%nat, 1); (1%nat, 2)]).
  exact cadena_dos_vuelos.
Defined.

(** C7 as stated fails: the engine on the empty table has [size] 0, and
    neither method raises there. *)
Lemma obtener_en_vacia_no_lanza :
  size vacia = 0 ∧
  (∀ e, (obtener_primero vacia).2 ≠ Raise e) ∧
  (∀ e, (obtener_ultimo vacia).2 ≠ Raise e).
Proof. by split; [|split]. Qed.

(** ** Rejected arguments *)

Lemma insertar_en_posicion_fuera v p s :
  p < 0 ∨ p > size s →
  insertar_en_posicion v p s =
    (s, Raise (ValueError (PosicionFueraDeRango p (size s)))).
Proof.
  intros H. unfold insertar_en_posicion, bind. cbn.
  assert ((p <? 0) || (p >? size s) = true) as ->; [|done].
  apply orb_true_iff. rewrite Z.gtb_ltb, !Z.ltb_lt. lia.
Qed.

Lemma extraer_de_posicion_fuera p s :
  p < 0 ∨ p > size s - 1 →
  extraer_de_posicion p s =
    (s, Raise (ValueError (PosicionFueraDeRango p (size s - 1)))).
Proof.
  intros H. unfold extraer_de_posicion, bind. cbn.
  assert ((p <? 0) || (p >=? size s) = true) as ->; [|done].
  apply orb_true_iff. rewrite Z.geb_leb, Z.ltb_lt, Z.leb_le. lia.
Qed.

Lemma reordenar_otra_cantidad fuel ids s :
  Z.of_nat (length ids) ≠ size s →
  reordenar fuel ids s = (s, Raise (ValueError CantidadNoCoincide)).
Proof.
  intros H. unfold reordenar, bind. cbn.
  by apply Z.eqb_neq in H as ->.
Qed.

Lemma reordenar_id_ajeno fuel ids s cs i :
  cadena s cs →
  (length cs ≤ fuel)%nat →
  Z.of_nat (length ids) = size s →
  i ∈ ids → i ∉ cs.*2 →
  reordenar fuel ids s = (s, Raise (ValueError IdsNoExisten)).
Proof.
  intros [Hs Hc Hl Hz Hn Hf] Hfuel Hlen Hi Hni.
  unfold reordenar, bind. cbn. rewrite Hlen, Z.eqb_refl. cbn.
  rewrite Hc. erewrite recoger_seg by done.
  assert (forallb (λ i, bool_decide (is_Some (recogidos cs ∅ !! i))) ids = false) as ->; [|done].
  apply not_true_is_false. intros Hall.
  rewrite forallb_forall in Hall. specialize (Hall i).
  rewrite bool_decide_eq_true, recogidos_lookup in Hall.
  rewrite decide_False in Hall by done. rewrite lookup_empty in Hall.
  destruct Hall as [x Hx]; [by apply list_elem_of_In|done].
Qed.

(** C8: a position outside the range of [insertar_en_posicion] or of
    [extraer_de_posicion], and for [reordenar] a list of the wrong length or
    with an id that is not queued, raise [ValueError] with the message of
    that check, and the whole state (nodes, [cabeza], [cola], [size] and
    the rows of the table) is the one from before the call. *)
Theorem argumento_invalido_sin_efecto fuel s cs op :
  cadena s cs →
  (length cs ≤ fuel)%nat →
  invalida s cs op →
  ejecutar fuel op s = (s, Raise (ValueError (mensaje s op))).
Proof.
  intros Hcad Hfuel Hinv.
  destruct op as [v|v|v p|p|ids]; cbn in Hinv; try done; cbn; unfold bind.
  - by rewrite insertar_en_posicion_fuera.
  - by rewrite extraer_de_posicion_fuera.
  - destruct (Z.of_nat (length ids) =? size s) eqn:E.
    + apply Z.eqb_eq in E. destruct Hinv as [Hinv|(i & Hi & Hni)]; [done|].
      by erewrite reordenar_id_ajeno.
    + apply Z.eqb_neq in E. by rewrite reordenar_otra_cantidad.
Qed.

Lemma argumento_invalido_sin_efecto_witness :
  ejecutar 2 (Reordenar [1; 7]) dos_vuelos =
    (dos_vuelos, Raise (ValueError IdsNoExisten)).
Proof.
  apply (argumento_invalido_sin_efecto 2 dos_vuelos [(0%nat, 1); (1%nat, 2)] (Reordenar [1; 7])).
  - exact cadena_dos_vuelos.
  - cbn. lia.
  - right. exists 7. split.
    + apply list_elem_of_further, list_elem_of_here.
    + cbn. intros H. apply elem_of_cons in H as [H|H]; [done|].
      by apply list_elem_of_singleton in H.
Defined.

(** ** The chain in the table *)

Lemma buscar_id i fs r : buscar i fs = Some r → Vuelo.id r = i.
Proof.
  unfold buscar. intros H. apply find_some in H as [_ H].
  by apply bool_decide_eq_true in H.
Qed.

Lemma buscar_None i fs : buscar i fs = None ↔ i ∉ map Vuelo.id fs.
Proof.
  unfold buscar. induction fs as [|r fs IH]; cbn.
  - split; [intros _; apply not_elem_of_nil|done].
  - case_bool_decide as E.
    + split; [done|]. intros H. exfalso. apply H. rewrite E. apply list_elem_of_here.
    + rewrite IH, elem_of_cons. split.
      * by intros H [?|?].
      * intros H H'. apply H. by right.
Qed.


Lemma ids_actualizar j f fs :
  (∀ r, Vuelo.id (f r) = Vuelo.id r) →
  map Vuelo.id (actualizar_fila j f fs) = map Vuelo.id fs.
Proof.
  intros Hf. unfold actualizar_fila. rewrite map_map. apply map_ext.
  intros r. by case_decide.
Qed.





(** The greatest primary key bounds them all. *)
Lemma max_id_cota (l : list Z) x : x ∈ l → x ≤ foldr Z.max 0 l.
Proof.
  induction l as [|y l IH]; intros H.
  - by apply elem_of_nil in H.
  - cbn. apply elem_of_cons in H as [->|H]; [lia|]. apply IH in H. lia.
Qed.

Lemma max_id_no_negativo (l : list Z) : 0 ≤ foldr Z.max 0 l.
Proof. induction l; cbn; lia. Qed.

(** ** Creating a flight and queueing it *)

Lemma db_crear_ok vd s :
  fallos (session s) = [] →
  codigo_ocupado vd (filas (session s)) = false →
  db_crear vd s =
    (con_session
       {| filas := filas (session s) ++ [nueva_fila vd (proximo_id (filas (session s)))];
          fallos := [] |} s,
     Ok (proximo_id (filas (session s)))).
Proof.
  intros Hf Hc. unfold db_crear, bind, codigo_ocupado in *. cbn.
  rewrite Hf, Hc. reflexivity.
Qed.

Lemma proximo_id_nuevo fs :
  (proximo_id fs ∉ map Vuelo.id fs) ∧ (0 < proximo_id fs).
Proof.
  unfold proximo_id. split.
  - intros H. apply max_id_cota in H. lia.
  - pose proof (max_id_no_negativo (map Vuelo.id fs)). lia.
Qed.

Lemma sesion_al_final_sin_fallos v cs b :
  fallos b = [] →
  sesion_al_final v cs b =
    {| filas :=
         match last cs with
         | None => actualizar_fila v (asignar None None) (filas b)
         | Some c =>
             actualizar_fila c.2 (asignar None (Some v))
               (actualizar_fila v (asignar (Some c.2) None) (filas b))
         end;
       fallos := [] |}.
Proof.
  intros H. unfold sesion_al_final. destruct (last cs).
  - rewrite (tras_commit_sin_fallos _ _ _ b) by done.
    by rewrite tras_commit_sin_fallos.
  - by rewrite tras_commit_sin_fallos.
Qed.

Lemma sesion_al_frente_sin_fallos v cs b :
  fallos b = [] →
  sesion_al_frente v cs b =
    {| filas :=
         match cs with
         | [] => actualizar_fila v (asignar None None) (filas b)
         | c :: _ =>
             actualizar_fila c.2 (asignar (Some v) None)
               (actualizar_fila v (asignar None (Some c.2)) (filas b))
         end;
       fallos := [] |}.
Proof.
  intros H. unfold sesion_al_frente. destruct cs.
  - by rewrite tras_commit_sin_fallos.
  - rewrite (tras_commit_sin_fallos _ _ _ b) by done.
    by rewrite tras_commit_sin_fallos.
Qed.


#[local] Arguments actualizar_fila : simpl never.
#[local] Arguments proximo_id : simpl never.
#[local] Arguments enlaces : simpl never.

Lemma mismos_datos_actualizar j a g fs fs' :
  mismos_datos fs fs' → mismos_datos (actualizar_fila j (asignar a g) fs) fs'.
Proof.
  intros [H1 H2]. split.
  - by rewrite ids_actualizar.
  - rewrite <- H2. unfold actualizar_fila. rewrite map_map. apply map_ext.
    intros r. by case_decide.
Qed.

(** Queueing the flight just created, behind the queue or in front of it:
    the chain gets a node for it, and the table keeps the keys and codes
    it had after the creation, with no failing commit to come. *)
Lemma insertar_al_final_creado vd s cs :
  cadena s cs →
  ∃ s', insertar_al_final (proximo_id (filas (session s))) (creado vd s) =
          (s', Ok (proximo_id (filas (session s)))) ∧
        cadena s' (cs ++ [(libre s, proximo_id (filas (session s)))]) ∧
        fallos (session s') = [] ∧
        mismos_datos (filas (session s'))
          (filas (session s) ++ [nueva_fila vd (proximo_id (filas (session s)))]).
Proof.
  intros Hcad.
  destruct (insertar_al_final_cadena (proximo_id (filas (session s))) (creado vd s) cs)
    as (s' & E & Hcad' & Hses); [by apply cadena_con_session|].
  exists s'. split; [done|].
  rewrite sesion_al_final_sin_fallos in Hses by done. cbn in Hses, Hcad'.
  split; [done|]. rewrite Hses. cbn. split; [done|].
  destruct (last cs); repeat apply mismos_datos_actualizar; by split.
Qed.

Lemma insertar_al_frente_creado vd s cs :
  cadena s cs →
  ∃ s', insertar_al_frente (proximo_id (filas (session s))) (creado vd s) =
          (s', Ok (proximo_id (filas (session s)))) ∧
        cadena s' ((libre s, proximo_id (filas (session s))) :: cs) ∧
        fallos (session s') = [] ∧
        mismos_datos (filas (session s'))
          (filas (session s) ++ [nueva_fila vd (proximo_id (filas (session s)))]).
Proof.
  intros Hcad.
  destruct (insertar_al_frente_cadena (proximo_id (filas (session s))) (creado vd s) cs)
    as (s' & E & Hcad' & Hses); [by apply cadena_con_session|].
  exists s'. split; [done|].
  rewrite sesion_al_frente_sin_fallos in Hses by done. cbn in Hses, Hcad'.
  split; [done|]. rewrite Hses. cbn. split; [done|].
  destruct cs; repeat apply mismos_datos_actualizar; by split.
Qed.

Lemma partir_en_medio {A} (l : list A) (n : nat) :
  (0 < n < length l)%nat →
  ∃ l1 a c l2, l = l1 ++ a :: c :: l2 ∧ S (length l1) = n.
Proof.
  intros Hn. destruct n as [|n]; [lia|].
  exists (take n l).
  destruct (drop n l) as [|a [|c l2]] eqn:E.
  - apply (f_equal length) in E. rewrite length_drop in E. cbn in E. lia.
  - apply (f_equal length) in E. rewrite length_drop in E. cbn in E. lia.
  - exists a, c, l2. split.
    + by rewrite <- E, take_drop.
    + rewrite length_take. lia.
Qed.

#[local] Arguments insertar_al_frente : simpl never.
#[local] Arguments insertar_al_final : simpl never.
#[local] Arguments insertar_en_posicion : simpl never.
#[local] Arguments db_crear : simpl never.

Lemma agregar_vuelo_creado vd s cs :
  cadena s cs →
  fallos (session s) = [] →
  codigo_ocupado vd (filas (session s)) = false →
  ∃ s', agregar_vuelo vd s = (s', Ok (proximo_id (filas (session s)))) ∧
        cadena s'
          (if decide (VueloBase.estado vd = EMERGENCIA)
           then (libre s, proximo_id (filas (session s))) :: cs
           else cs ++ [(libre s, proximo_id (filas (session s)))]) ∧
        fallos (session s') = [] ∧
        mismos_datos (filas (session s'))
          (filas (session s) ++ [nueva_fila vd (proximo_id (filas (session s)))]).
Proof.
  intros Hcad Hf Hlibre.
  unfold agregar_vuelo, try_except, bind.
  rewrite db_crear_ok by done. fold (creado vd s).
  destruct (decide (VueloBase.estado vd = EMERGENCIA)).
  - destruct (insertar_al_frente_creado vd s cs Hcad) as (s' & E & H').
    rewrite E. by exists s'.
  - destruct (insertar_al_final_creado vd s cs Hcad) as (s' & E & H').
    rewrite E. by exists s'.
Qed.

(** ** Rebuilding the queue from the table *)

Lemma indice_lookup_gen fs (d : gmap Z Vuelo.t) i :
  NoDup (map Vuelo.id fs) →
  foldl (λ d v, <[Vuelo.id v := v]> d) d fs !! i =
    match buscar i fs with
    | Some r => Some r
    | None => d !! i
    end.
Proof.
  revert d. induction fs as [|r fs IH]; intros d Hn; [done|].
  cbn in Hn. apply NoDup_cons in Hn as [Hr Hn].
  cbn. rewrite IH by done. unfold buscar. cbn.
  case_bool_decide as E.
  - subst i. apply buscar_None in Hr. unfold buscar in Hr. rewrite Hr.
    apply lookup_insert_eq.
  - by rewrite lookup_insert_ne.
Qed.

Lemma indice_lookup fs i :
  NoDup (map Vuelo.id fs) → indice fs !! i = buscar i fs.
Proof.
  intros Hn. unfold indice. rewrite indice_lookup_gen by done.
  rewrite lookup_empty. by destruct (buscar i fs).
Qed.

Lemma buscar_elem fs r :
  NoDup (map Vuelo.id fs) → r ∈ fs → buscar (Vuelo.id r) fs = Some r.
Proof.
  induction fs as [|r' fs IH]; intros Hn Hr.
  - by apply elem_of_nil in Hr.
  - cbn in Hn. apply NoDup_cons in Hn as [Hr' Hn].
    unfold buscar. cbn. apply elem_of_cons in Hr as [->|Hr].
    + by rewrite bool_decide_eq_true_2.
    + rewrite bool_decide_eq_false_2; [by apply IH|].
      intros E. apply Hr'. rewrite E. apply list_elem_of_fmap. eauto.
Qed.

#[local] Arguments Nodo_init : simpl never.

(** The walk of [_cargar_desde_bd] along the links of the table. *)
Lemma seguir_segbd fs vs :
  ∀ fuel s pcs a u,
    cadena (con_cola (Some a.1) s) (pcs ++ [a]) →
    segbd fs (Some u) vs None →
    (∀ v, v ∈ vs → 0 < v) →
    (length vs ≤ fuel)%nat →
    NoDup (map Vuelo.id fs) →
    ∃ s' cs2 ult,
      seguir fuel (indice fs) (primer_id vs None) a.1 s = (s', Ok ult) ∧
      cadena (con_cola (Some ult) s') ((pcs ++ [a]) ++ cs2) ∧
      cs2.*2 = vs ∧
      session s' = session s.
Proof.
  induction vs as [|v vs IH]; intros fuel s pcs a u Hcad Hs Hpos Hfuel Hn.
  - exists s, [], a.1. cbn. split; [by destruct fuel|].
    by rewrite app_nil_r.
  - destruct Hs as [Hv Hs]. destruct fuel as [|fuel]; [cbn in Hfuel; lia|].
    unfold enlaces in Hv. destruct (buscar v fs) as [r|] eqn:Eb; [|done].
    cbn in Hv. injection Hv as Ha Hg. pose proof (buscar_id _ _ _ Eb) as Hid.
    assert (0 < v) as Hv0 by apply Hpos, list_elem_of_here.
    pose proof Hcad as [Hsg Hc Hl Hz Hnd Hf]. cbn in Hsg, Hf.
    apply seg_app in Hsg as [Hs1 [Hs2 _]]. cbn in Hs2.
    assert (a.1 ≠ libre s) as Hne.
    { intros E. assert (a.1 < libre s)%nat; [|lia]. apply Hf. eauto. }
    cbn [seguir primer_id]. rewrite indice_lookup by done. rewrite Eb.
    decide_bool (v =? 0) false. cbn [negb andb].
    rewrite bool_decide_eq_true_2 by eauto.
    unfold bind. unfold Nodo_init at 1. cbn.
    repeat paso. rewrite Hid, Hg.
    match goal with
    | |- context [seguir fuel _ _ _ ?s1] =>
        destruct (IH fuel s1 (pcs ++ [a]) (libre s, v) v)
          as (s' & cs2 & ult & E & Hcad' & Hvs & Hses)
    end; [|exact Hs| | |done|].
    { eapply cadena_ext;
        [exact (cadena_enganchar _ pcs a v (session s) Hcad)|cbn; try done..]. }
    { intros w Hw. by apply Hpos, list_elem_of_further. }
    { cbn in Hfuel. lia. }
    cbn in E. rewrite E.
    eexists s', ((libre s, v) :: cs2), ult. split; [done|split; [|split]].
    + by rewrite <- app_assoc in Hcad'.
    + cbn. by rewrite Hvs.
    + by rewrite Hses.
Qed.

Lemma cadena_recien_creada b : cadena (recien_creada b) [].
Proof. eapply cadena_ext; [exact cadena_vacia|done..]. Qed.

(** ** Creating and queueing *)

Lemma codigo_ocupado_false vd fs :
  VueloBase.codigo vd ∉ map Vuelo.codigo fs → codigo_ocupado vd fs = false.
Proof.
  intros H. unfold codigo_ocupado. apply not_true_is_false. intros E.
  apply existsb_exists in E as (r & Hr & Heq). apply String.eqb_eq in Heq.
  apply H. rewrite <- Heq. apply list_elem_of_fmap. exists r. split; [done|].
  by apply list_elem_of_In.
Qed.

Lemma max_id_snoc (l : list Z) x :
  0 ≤ x → foldr Z.max 0 (l ++ [x]) = Z.max (foldr Z.max 0 l) x.
Proof. intros Hx. induction l as [|y l IH]; cbn; [lia|]. rewrite IH. lia. Qed.

Lemma proximo_id_tras_crear fs fs' vd :
  mismos_datos fs' (fs ++ [nueva_fila vd (proximo_id fs)]) →
  proximo_id fs' = proximo_id fs + 1.
Proof.
  intros [H _]. unfold proximo_id in *. rewrite H, map_app. cbn.
  pose proof (max_id_no_negativo (map Vuelo.id fs)).
  rewrite max_id_snoc by lia. lia.
Qed.

Lemma agregar_todos_cadena vds :
  ∀ s cs,
    cadena s cs →
    fallos (session s) = [] →
    NoDup (map VueloBase.codigo vds) →
    (∀ c, c ∈ map VueloBase.codigo vds → c ∉ map Vuelo.codigo (filas (session s))) →
    ∃ s' cs', agregar_todos vds s = (s', Ok tt) ∧
              cadena s' cs' ∧
              cs'.*2 = orden_esperado (proximo_id (filas (session s))) vds cs.*2 ∧
              (length cs' = length cs + length vds)%nat.
Proof.
  induction vds as [|vd vds IH]; intros s cs Hcad Hf Hn Hlibres.
  - exists s, cs. cbn. split; [done|]. split; [done|]. split; [done|]. lia.
  - cbn in Hn. apply NoDup_cons in Hn as [Hvd Hn].
    destruct (agregar_vuelo_creado vd s cs Hcad Hf) as (s1 & E1 & Hcad1 & Hf1 & Hdatos).
    { apply codigo_ocupado_false, Hlibres. cbn. apply list_elem_of_here. }
    destruct (IH s1 _ Hcad1 Hf1 Hn) as (s' & cs' & E & Hcad' & Hvs & Hlen).
    { intros c Hc. destruct Hdatos as [_ ->]. rewrite map_app. cbn.
      intros Hin. apply elem_of_app in Hin as [Hin|Hin].
      - by apply (Hlibres c); [apply list_elem_of_further|].
      - apply list_elem_of_singleton in Hin as ->. done. }
    exists s', cs'. cbn. unfold bind. rewrite E1. split; [done|]. split; [done|].
    rewrite (proximo_id_tras_crear _ _ _ Hdatos) in Hvs. split.
    + rewrite Hvs. by case_decide; rewrite ?fmap_app.
    + rewrite Hlen. case_decide; rewrite ?length_app; cbn; lia.
Qed.

(** C6: from the empty table, creating the flights [vds] (pairwise distinct
    codes) one after the other leaves the queue in the order in which each
    flight, numbered from 1, went to the front if it was an emergency and to
    the back otherwise. *)
Theorem agregar_vuelo_orden vds fuel :
  NoDup (map VueloBase.codigo vds) →
  (length vds ≤ fuel)%nat →
  ∃ s', agregar_todos vds vacia = (s', Ok tt) ∧
        listar_todos fuel s' = (s', Ok (orden_esperado 1 vds [])).
Proof.
  intros Hn Hfuel.
  destruct (agregar_todos_cadena vds vacia [] cadena_vacia eq_refl Hn)
    as (s' & cs' & E & Hcad & Hvs & Hlen).
  { intros c _ H. by apply elem_of_nil in H. }
  exists s'. split; [done|].
  change (orden_esperado 1 vds []) with (orden_esperado (proximo_id []) vds []).
  cbn in Hvs. rewrite <- Hvs.
  apply listar_todos_cadena; [done|]. cbn in Hlen. lia.
Qed.

(** The scenario of C6: A (scheduled), B (emergency), C (scheduled) are
    listed as B, A, C. *)
Lemma agregar_vuelo_orden_witness :
  ∃ s', agregar_todos
          [datos "A" PROGRAMADO; datos "B" EMERGENCIA; datos "C" PROGRAMADO] vacia =
          (s', Ok tt) ∧
        listar_todos 3 s' = (s', Ok [2; 1; 3]).
Proof.
  apply (agregar_vuelo_orden
           [datos "A" PROGRAMADO; datos "B" EMERGENCIA; datos "C" PROGRAMADO] 3).
  - cbn. apply NoDup_cons. split.
    { intros H. apply elem_of_cons in H as [H|H]; [done|].
      by apply list_elem_of_singleton in H. }
    apply NoDup_cons. split; [|apply NoDup_singleton].
    intros H. by apply list_elem_of_singleton in H.
  - cbn. lia.
Defined.

(** ** Failing commits *)

Lemma memoria_eq s1 s2 :
  memoria s1 = memoria s2 ↔
  nodos s1 = nodos s2 ∧ libre s1 = libre s2 ∧ cabeza s1 = cabeza s2 ∧
  cola s1 = cola s2 ∧ size s1 = size s2.
Proof. unfold memoria. split; [intros [= -> -> -> -> ->]|intros (-> & -> & -> & -> & ->)]; done. Qed.

Lemma respeta_ret {A} (a : A) : respeta (ret a).
Proof. by intros s1 s2 H. Qed.

Lemma respeta_raise {A} e : respeta (@raise A e).
Proof. by intros s1 s2 H. Qed.

Lemma respeta_agotado {A} : respeta (@agotado A).
Proof. by intros s1 s2 H. Qed.

Lemma respeta_bind {A B} (c : M A) (k : A → M B) :
  respeta c → (∀ a, respeta (k a)) → respeta (bind c k).
Proof.
  intros Hc Hk s1 s2 H. destruct (Hc s1 s2 H) as [Hr Hm]. unfold bind.
  destruct (c s1) as [s1' r1], (c s2) as [s2' r2]. cbn in Hr, Hm. subst r2.
  destruct r1; [by apply Hk|done..].
Qed.

(** [_actualizar_bd] never raises and leaves the memory alone, so what
    follows a call whose answer is dropped runs the same whether the commit
    failed or not. *)
Lemma respeta_tras_commit {B} v a g (k : M B) :
  respeta k → respeta (bind (_actualizar_bd v a g) (λ _, k)).
Proof.
  intros Hk s1 s2 H. unfold bind. rewrite !_actualizar_bd_eq.
  apply Hk. apply memoria_eq in H. by apply memoria_eq.
Qed.

Lemma respeta_leer_cabeza : respeta (leer cabeza).
Proof. intros s1 s2 H. pose proof H as (?&?&?&?&?)%memoria_eq. cbn. split; congruence. Qed.

Lemma respeta_leer_cola : respeta (leer cola).
Proof. intros s1 s2 H. pose proof H as (?&?&?&?&?)%memoria_eq. cbn. split; congruence. Qed.

Lemma respeta_leer_size : respeta (leer size).
Proof. intros s1 s2 H. pose proof H as (?&?&?&?&?)%memoria_eq. cbn. split; congruence. Qed.

Lemma respeta_poner_cabeza c : respeta (poner_cabeza c).
Proof.
  intros s1 s2 H. pose proof H as (?&?&?&?&?)%memoria_eq. cbn.
  split; [done|]. by apply memoria_eq.
Qed.

Lemma respeta_poner_cola c : respeta (poner_cola c).
Proof.
  intros s1 s2 H. pose proof H as (?&?&?&?&?)%memoria_eq. cbn.
  split; [done|]. by apply memoria_eq.
Qed.

Lemma respeta_poner_size n : respeta (poner_size n).
Proof.
  intros s1 s2 H. pose proof H as (?&?&?&?&?)%memoria_eq. cbn.
  split; [done|]. by apply memoria_eq.
Qed.

Lemma respeta_Nodo_init v : respeta (Nodo_init v).
Proof.
  intros s1 s2 H. pose proof H as (E1&E2&?&?&?)%memoria_eq. unfold Nodo_init. cbn.
  rewrite E1, E2. split; [done|]. by apply memoria_eq.
Qed.

Lemma respeta_attr {A} (f : Nodo.t → A) r : respeta (attr f r).
Proof.
  intros s1 s2 H. pose proof H as (E1&?&?&?&?)%memoria_eq.
  unfold attr, bind, nodo, ret. rewrite E1.
  destruct r as [d|]; [|done]. by destruct (nodos s2 !! d).
Qed.

Lemma respeta_poner_anterior r x : respeta (poner_anterior r x).
Proof.
  intros s1 s2 H. pose proof H as (E1&?&?&?&?)%memoria_eq.
  unfold poner_anterior. rewrite E1.
  destruct r as [d|]; [|done]. destruct (nodos s2 !! d); [|done].
  cbn. split; [done|]. by apply memoria_eq.
Qed.

Lemma respeta_poner_siguiente r x : respeta (poner_siguiente r x).
Proof.
  intros s1 s2 H. pose proof H as (E1&?&?&?&?)%memoria_eq.
  unfold poner_siguiente. rewrite E1.
  destruct r as [d|]; [|done]. destruct (nodos s2 !! d); [|done].
  cbn. split; [done|]. by apply memoria_eq.
Qed.

Create HintDb respeta.
#[local] Hint Resolve respeta_ret respeta_raise respeta_agotado respeta_leer_cabeza
  respeta_leer_cola respeta_leer_size respeta_poner_cabeza respeta_poner_cola
  respeta_poner_size respeta_Nodo_init respeta_attr respeta_poner_anterior
  respeta_poner_siguiente : respeta.

Ltac respeta_paso :=
  match goal with
  | |- respeta (bind (_actualizar_bd _ _ _) _) => apply respeta_tras_commit
  | |- respeta (bind _ _) => apply respeta_bind; [|intros ?]
  | |- respeta (match ?x with _ => _ end) => destruct x
  | |- respeta _ => solve [auto with respeta]
  end.

Lemma respeta_insertar_al_frente v : respeta (insertar_al_frente v).
Proof. unfold insertar_al_frente. repeat respeta_paso. Qed.

Lemma respeta_insertar_al_final v : respeta (insertar_al_final v).
Proof. unfold insertar_al_final. repeat respeta_paso. Qed.

Lemma respeta_avanzar n actual : respeta (avanzar n actual).
Proof. revert actual. induction n; intros actual; cbn; repeat respeta_paso. Qed.

#[local] Hint Resolve respeta_insertar_al_frente respeta_insertar_al_final
  respeta_avanzar : respeta.

Lemma respeta_insertar_en_posicion v p : respeta (insertar_en_posicion v p).
Proof. unfold insertar_en_posicion. repeat respeta_paso. Qed.

Lemma respeta_extraer_de_posicion p : respeta (extraer_de_posicion p).
Proof. unfold extraer_de_posicion. repeat respeta_paso. Qed.

Lemma respeta_listar_desde fuel actual vs : respeta (listar_desde fuel actual vs).
Proof.
  revert actual vs. induction fuel; intros actual vs; cbn; repeat respeta_paso.
Qed.

Lemma respeta_recoger fuel actual vuelos : respeta (recoger fuel actual vuelos).
Proof.
  revert actual vuelos. induction fuel; intros actual vuelos; cbn; repeat respeta_paso.
Qed.

Lemma respeta_reinsertar vuelos ids : respeta (reinsertar vuelos ids).
Proof.
  induction ids; cbn; unfold elemento; repeat respeta_paso.
Qed.

#[local] Hint Resolve respeta_listar_desde respeta_recoger respeta_reinsertar : respeta.

Lemma respeta_reordenar fuel ids : respeta (reordenar fuel ids).
Proof. unfold reordenar, listar_todos. repeat respeta_paso. Qed.

(** C4, amended: a commit that fails inside a mutating method is not
    reported.  [_actualizar_bd] never raises: it changes the session only
    and answers whether the commit went through, and when it did not the
    rows are the ones from before.  Each method answers, and leaves the
    chain in memory, exactly as it does on any other session, one without
    failing commits included. *)
Theorem fallo_de_commit_no_aflora fuel op s1 s2 :
  memoria s1 = memoria s2 →
  (∀ v a g, ∃ b',
     _actualizar_bd v a g s1 = (con_session b' s1, Ok (commit_ok (session s1))) ∧
     (commit_ok (session s1) = false → filas b' = filas (session s1))) ∧
  (ejecutar fuel op s1).2 = (ejecutar fuel op s2).2 ∧
  memoria (ejecutar fuel op s1).1 = memoria (ejecutar fuel op s2).1.
Proof.
  intros H. split.
  { intros v a g. eexists. split; [apply _actualizar_bd_eq|].
    unfold commit_ok, tras_commit. by destruct (fallos (session s1)) as [|[] ?]. }
  revert s1 s2 H. change (respeta (ejecutar fuel op)).
  destruct op; cbn [ejecutar]; repeat respeta_paso.
  - apply respeta_insertar_en_posicion.
  - apply respeta_extraer_de_posicion.
  - apply respeta_reordenar.
Qed.

Lemma fallo_de_commit_no_aflora_witness :
  (∀ v a g, ∃ b',
     _actualizar_bd v a g con_commits_fallidos = (con_session b' con_commits_fallidos, Ok false) ∧
     (false = false → filas b' = filas (session con_commits_fallidos))) ∧
  (ejecutar 3 (InsertarAlFinal 3) con_commits_fallidos).2 =
    (ejecutar 3 (InsertarAlFinal 3) dos_vuelos).2 ∧
  memoria (ejecutar 3 (InsertarAlFinal 3) con_commits_fallidos).1 =
    memoria (ejecutar 3 (InsertarAlFinal 3) dos_vuelos).1.
Proof.
  apply (fallo_de_commit_no_aflora 3 (InsertarAlFinal 3) con_commits_fallidos dos_vuelos).
  reflexivity.
Defined.

(** C4 as stated fails: with both commits of [insertar_al_final] failing,
    the call returns the flight and raises nothing; the queue in memory is
    1, 2, 3 while in the table flight 2 has no successor and flight 3 no
    predecessor. *)
Lemma fallo_de_commit_silencioso :
  let r := insertar_al_final 3 con_commits_fallidos in
  r.2 = Ok 3 ∧
  (∀ e, r.2 ≠ Raise e) ∧
  (listar_todos 3 r.1).2 = Ok [1; 2; 3] ∧
  enlaces (filas (session r.1)) 2 = Some (Some 1, None) ∧
  enlaces (filas (session r.1)) 3 = Some (None, None).
Proof. vm_compute. repeat split; done. Qed.

(** ** Links that are never cleared *)

(** C2 at the failing input: two flights are queued and the first one is
    extracted.  Flight 2 is now at the head, its node has no predecessor,
    and its row still names flight 1 as its predecessor. *)
Lemma cabeza_con_anterior_persistido :
  let s := (extraer_de_posicion 0
              (foldl atender vacia
                 [Agregar (datos "AV1" PROGRAMADO); Agregar (datos "AV2" PROGRAMADO)])).1 in
  (obtener_primero s).2 = Ok (Some 2) ∧
  (attr Nodo.anterior (cabeza s) s).2 = Ok None ∧
  enlaces (filas (session s)) 2 = Some (Some 1, None).
Proof. vm_compute. repeat split; done. Qed.

(** C3 at the failing input: three flights are queued and the middle one is
    extracted.  The call returns flight 2, the queue is 1, 3, the rows of 1
    and 3 point at each other, and the row of flight 2 keeps both links. *)
Lemma extraido_conserva_enlaces :
  let r := extraer_de_posicion 1
             (foldl atender vacia
                [Agregar (datos "AV1" PROGRAMADO); Agregar (datos "AV2" PROGRAMADO);
                 Agregar (datos "AV3" PROGRAMADO)]) in
  r.2 = Ok 2 ∧
  (listar_todos 3 r.1).2 = Ok [1; 3] ∧
  enlaces (filas (session r.1)) 1 = Some (None, Some 3) ∧
  enlaces (filas (session r.1)) 3 = Some (Some 1, None) ∧
  enlaces (filas (session r.1)) 2 = Some (Some 1, Some 3).
Proof. vm_compute. repeat split; done. Qed.

(** ** A table with a cycle *)

Lemma tabla_ciclica_alcanzable :
  session (reordenar 2 [2; 1]
             (foldl atender vacia
                [Agregar (datos "AV1" PROGRAMADO); Agregar (datos "AV2" PROGRAMADO)])).1 =
  tabla_ciclica.
Proof. vm_compute. done. Qed.

(** One turn of the loop of [_cargar_desde_bd]. *)
Lemma seguir_paso fuel (dict : gmap Z Vuelo.t) i r a s :
  i ≠ 0 →
  dict !! i = Some r →
  is_Some (nodos s !! a) →
  ∃ s1, is_Some (nodos s1 !! libre s) ∧
        seguir (S fuel) dict (Some i) a s =
          seguir fuel dict (Vuelo.siguiente_id r) (libre s) s1.
Proof.
  intros Hi Hr [x Ha]. cbn [seguir]. rewrite Hr.
  decide_bool (i =? 0) false. cbn [negb andb].
  rewrite bool_decide_eq_true_2 by eauto.
  unfold bind. unfold Nodo_init at 1. cbn.
  erewrite poner_anterior_ok by busca. cbn. rewrite insert_insert_eq.
  destruct (decide (a = libre s)) as [->|Hne].
  - erewrite poner_siguiente_ok by busca. cbn.
    eexists. split; [|reflexivity]. cbn. rewrite lookup_insert_eq. eauto.
  - erewrite poner_siguiente_ok by busca. cbn.
    eexists. split; [|reflexivity]. cbn.
    rewrite lookup_insert_ne by done. rewrite lookup_insert_eq. eauto.
Qed.

Lemma seguir_en_ciclo fuel :
  ∀ i a s,
    i = 1 ∨ i = 2 →
    is_Some (nodos s !! a) →
    ∃ s', seguir fuel (indice (filas tabla_ciclica)) (Some i) a s = (s', Agotado).
Proof.
  assert (indice (filas tabla_ciclica) !! 1 =
          Some (fila_ejemplo 1 "AV1" (Some 2) (Some 2))) as H1 by done.
  assert (indice (filas tabla_ciclica) !! 2 =
          Some (fila_ejemplo 2 "AV2" (Some 1) (Some 1))) as H2 by done.
  induction fuel as [|fuel IH]; intros i a s Hi Ha.
  - destruct Hi as [-> | ->]; cbn [seguir]; rewrite ?H1, ?H2; cbn; eauto.
  - destruct Hi as [-> | ->].
    + destruct (seguir_paso fuel _ 1 _ a s ltac:(done) H1 Ha) as (s1 & Hs1 & ->).
      apply IH; [by right|done].
    + destruct (seguir_paso fuel _ 2 _ a s ltac:(done) H2 Ha) as (s1 & Hs1 & ->).
      apply IH; [by left|done].
Qed.

(** C9 at the failing input: on that table the walk of [_cargar_desde_bd]
    never stops, whatever the fuel. *)
Theorem cargar_no_termina fuel :
  ∃ s', ListaVuelos_init fuel tabla_ciclica = (s', Agotado).
Proof.
  unfold ListaVuelos_init, _cargar_desde_bd, try_except, bind.
  cbn -[seguir indice]. unfold Nodo_init at 1. cbn -[seguir indice].
  match goal with
  | |- context [seguir fuel ?d (Some ?j) ?b ?s1] =>
      change d with (indice (filas tabla_ciclica));
      destruct (seguir_en_ciclo fuel j b s1) as [s' E]
  end.
  - by right.
  - cbn. rewrite lookup_insert_eq. eauto.
  - rewrite E. eauto.
Qed.

(** ** Extraction keeps the chain well formed *)

Lemma seg_sin_primero h p c cs n :
  NoDup (c :: cs).*1 → seg h p (c :: cs) n →
  ∀ x, seg (<[c.1 := x]> h) (Some c.1) cs n.
Proof.
  intros Hn [_ Hs] x. rewrite fmap_cons in Hn. apply NoDup_cons in Hn as [Hn _].
  eapply seg_marco; [|exact Hs]. intros d Hd.
  rewrite lookup_insert_ne; [done|]. by intros <-.
Qed.

Lemma extraer_al_frente_cadena s c cs :
  cadena s (c :: cs) →
  ∃ s', extraer_de_posicion 0 s = (s', Ok c.2) ∧ cadena s' cs.
Proof.
  intros [Hs Hc Hl Hz Hn Hf]. pose proof Hs as [H1 H2]. cbn in Hc.
  unfold extraer_de_posicion, bind. cbn -[Z.of_nat].
  rewrite Hz. cbn [length].
  decide_bool (0 >=? Z.of_nat (S (length cs))) false. cbn -[Z.of_nat].
  rewrite Hc. repeat paso.
  destruct cs as [|c' cs]; cbn -[Z.of_nat].
  - repeat paso. eexists. split; [reflexivity|].
    split; cbn -[Z.of_nat]; try done; [rewrite Hz; cbn; lia|apply NoDup_nil_2].
  - destruct H2 as [H2 H3]. rewrite !fmap_cons in Hn.
    apply NoDup_cons in Hn as [Hn1 Hn2]. pose proof Hn2 as [Hn3 Hn4]%NoDup_cons.
    repeat paso. eexists. split; [reflexivity|].
    split; cbn -[Z.of_nat]; try done.
    + split; [by rewrite lookup_insert_eq|].
      eapply seg_marco; [|exact H3]. intros d Hd.
      rewrite lookup_insert_ne; [done|]. by intros <-.
    + rewrite Hz. cbn [length]. lia.
    + intros d H. apply lookup_insert_is_Some in H as [<-|[_ H]]; [|by apply Hf].
      apply Hf. eauto.
Qed.

Lemma extraer_al_final_cadena s cs a c :
  cadena s (cs ++ [a; c]) →
  ∃ s', extraer_de_posicion (Z.of_nat (S (length cs))) s = (s', Ok c.2) ∧
        cadena s' (cs ++ [a]).
Proof.
  intros [Hs Hc Hl Hz Hn Hf].
  replace (cs ++ [a; c]) with ((cs ++ [a]) ++ [c]) in * by by rewrite <- app_assoc.
  rewrite ultima_snoc in Hl.
  apply seg_app in Hs as [Hs1 [Hsc _]]. rewrite ultima_snoc in Hsc. cbn in Hsc.
  apply seg_app in Hs1 as [Hs1 [Hsa _]]. cbn in Hsa.
  rewrite !fmap_app in Hn. cbn in Hn.
  apply NoDup_app in Hn as (Hn1 & Hn2 & _).
  pose proof Hn1 as (_ & Hn3 & _)%NoDup_app.
  assert (a.1 ≠ c.1) as Hac.
  { intros E. apply (Hn2 a.1); [apply elem_of_app; right|rewrite E]; apply list_elem_of_here. }
  unfold extraer_de_posicion, bind. cbn -[Z.of_nat].
  rewrite Hz, !length_app. cbn [length].
  decide_bool (Z.of_nat (S (length cs)) <? 0) false.
  decide_bool (Z.of_nat (S (length cs)) >=? Z.of_nat (length cs + 1 + 1)) false.
  decide_bool (Z.of_nat (S (length cs)) =? 0) false.
  decide_bool (Z.of_nat (S (length cs)) =? Z.of_nat (length cs + 1 + 1) - 1) true.
  cbn -[Z.of_nat]. rewrite Hl. repeat paso.
  eexists. split; [reflexivity|].
  split; cbn -[Z.of_nat]; try done.
  - apply seg_app. split.
    + eapply seg_marco; [|exact Hs1]. intros d Hd.
      rewrite lookup_insert_ne; [done|]. intros <-.
      apply (Hn3 _ Hd), list_elem_of_here.
    + cbn. split; [|done]. by rewrite lookup_insert_eq.
  - rewrite Hc. by rewrite <- app_assoc, !primera_app.
  - by rewrite ultima_snoc.
  - rewrite Hz, !length_app. cbn. lia.
  - by rewrite fmap_app.
  - intros d H. apply lookup_insert_is_Some in H as [<-|[_ H]]; [|by apply Hf].
    apply Hf. eauto.
Qed.

Lemma extraer_en_medio_cadena s cs1 a c b cs2 :
  cadena s (cs1 ++ a :: c :: b :: cs2) →
  ∃ s', extraer_de_posicion (Z.of_nat (S (length cs1))) s = (s', Ok c.2) ∧
        cadena s' (cs1 ++ a :: b :: cs2).
Proof.
  intros [Hs Hc Hl Hz Hn Hf]. pose proof Hs as Hs0.
  apply seg_app in Hs as [Hs1 [Hsa [Hsc [Hsb Hs2]]]]. cbn in Hsa, Hsc, Hsb.
  rewrite fmap_app, !fmap_cons in Hn.
  apply NoDup_app in Hn as (Hn1 & Hn2 & Hn3).
  apply NoDup_cons in Hn3 as [Hna Hn3]. apply NoDup_cons in Hn3 as [Hnc Hn3].
  apply NoDup_cons in Hn3 as [Hnb Hn3].
  assert (a.1 ≠ c.1) as Hac by (intros E; apply Hna; rewrite E; apply list_elem_of_here).
  assert (a.1 ≠ b.1) as Hab.
  { intros E. apply Hna. rewrite E. apply list_elem_of_further, list_elem_of_here. }
  assert (c.1 ≠ b.1) as Hcb by (intros E; apply Hnc; rewrite E; apply list_elem_of_here).
  unfold extraer_de_posicion, bind. cbn -[Z.of_nat Z.to_nat].
  rewrite Hz, !length_app. cbn [length].
  decide_bool (Z.of_nat (S (length cs1)) <? 0) false.
  decide_bool (Z.of_nat (S (length cs1)) >=? Z.of_nat (length cs1 + S (S (S (length cs2))))) false.
  decide_bool (Z.of_nat (S (length cs1)) =? 0) false.
  decide_bool (Z.of_nat (S (length cs1)) =?
               Z.of_nat (length cs1 + S (S (S (length cs2)))) - 1) false.
  cbn -[Z.of_nat Z.to_nat]. rewrite Nat2Z.id, Hc.
  replace (S (length cs1)) with (length (cs1 ++ [a])) by (rewrite length_app; cbn; lia).
  replace (cs1 ++ a :: c :: b :: cs2) with ((cs1 ++ [a]) ++ c :: b :: cs2)
    in Hs0 |- * by by rewrite <- app_assoc.
  erewrite avanzar_seg by exact Hs0. cbn.
  repeat paso. eexists. split; [reflexivity|].
  split; cbn -[Z.of_nat]; try done.
  - apply seg_app. split; [|split; [|split]]; cbn.
    + eapply seg_marco; [|exact Hs1]. intros d Hd.
      rewrite !lookup_insert_ne; [done| |].
      * intros <-. apply (Hn2 _ Hd), list_elem_of_here.
      * intros <-. apply (Hn2 _ Hd). by do 2 apply list_elem_of_further; apply list_elem_of_here.
    + rewrite lookup_insert_ne by done. by rewrite lookup_insert_eq.
    + by rewrite lookup_insert_eq.
    + eapply seg_marco; [|exact Hs2]. intros d Hd.
      rewrite !lookup_insert_ne; [done| |].
      * intros <-. apply Hna. by do 2 apply list_elem_of_further.
      * by intros <-.
  - rewrite Hc. by rewrite !primera_app.
  - rewrite Hl. unfold ultima. rewrite !last_app. cbn.
    rewrite !last_cons. by destruct (last cs2).
  - rewrite Hz, !length_app. cbn. lia.
  - rewrite fmap_app, !fmap_cons. apply NoDup_app. split; [done|]. split.
    + intros x Hx Hx'. apply (Hn2 x Hx).
      apply elem_of_cons in Hx' as [->|Hx']; [apply list_elem_of_here|].
      by do 2 apply list_elem_of_further.
    + apply NoDup_cons. split; [|by apply NoDup_cons].
      intros H. apply Hna. by apply list_elem_of_further.
  - intros d H.
    repeat (apply lookup_insert_is_Some in H as [<-|[_ H]]; [apply Hf; eauto|]).
    by apply Hf.
Qed.

(** Extraction at a valid position returns the flight there and leaves the
    chain without its node. *)
Lemma extraer_de_posicion_cadena s cs1 c cs2 :
  cadena s (cs1 ++ c :: cs2) →
  ∃ s', extraer_de_posicion (Z.of_nat (length cs1)) s = (s', Ok c.2) ∧
        cadena s' (cs1 ++ cs2).
Proof.
  intros Hcad. destruct cs1 as [|a cs1 _] using rev_ind.
  - by apply extraer_al_frente_cadena.
  - rewrite <- app_assoc in Hcad. cbn in Hcad.
    replace (Z.of_nat (length (cs1 ++ [a]))) with (Z.of_nat (S (length cs1)))
      by (rewrite length_app; cbn; lia).
    rewrite <- app_assoc. cbn. destruct cs2 as [|b cs2].
    + by apply extraer_al_final_cadena.
    + by apply extraer_en_medio_cadena.
Qed.

(** Every call of a mutating method, accepted or rejected, leaves a well
    formed chain. *)
Lemma ejecutar_cadena fuel op s cs :
  cadena s cs →
  (length cs ≤ fuel)%nat →
  ∃ cs', cadena (ejecutar fuel op s).1 cs'.
Proof.
  intros Hcad Hfuel. pose proof (cad_size _ _ Hcad) as Hz.
  destruct op as [v|v|v p|p|ids]; cbn; unfold bind.
  - destruct (insertar_al_frente_cadena v s cs Hcad) as (s' & -> & H & _). eauto.
  - destruct (insertar_al_final_cadena v s cs Hcad) as (s' & -> & H & _). eauto.
  - destruct (decide (p < 0 ∨ p > size s)) as [Hfuera|Hdentro].
    { rewrite insertar_en_posicion_fuera by done. eauto. }
    destruct (decide (p = 0)) as [->|Hp0].
    { destruct (insertar_al_frente_cadena v s cs Hcad) as (s' & E & H & _).
      unfold insertar_en_posicion, bind. cbn.
      decide_bool (0 >? size s) false. cbn. rewrite E. eauto. }
    destruct (decide (p = size s)) as [->|Hpn].
    { destruct (insertar_al_final_cadena v s cs Hcad) as (s' & E & H & _).
      unfold insertar_en_posicion, bind. cbn.
      decide_bool (size s <? 0) false. decide_bool (size s >? size s) false.
      decide_bool (size s =? 0) false. rewrite Z.eqb_refl. cbn. rewrite E. eauto. }
    destruct (partir_en_medio cs (Z.to_nat p)) as (cs1 & a & c & cs2 & -> & Hlen); [lia|].
    destruct (insertar_en_medio_cadena v s cs1 a c cs2 Hcad) as (s' & E & H & _).
    replace (Z.of_nat (S (length cs1))) with p in E by lia.
    rewrite E. eauto.
  - destruct (decide (p < 0 ∨ p > size s - 1)) as [Hfuera|Hdentro].
    { rewrite extraer_de_posicion_fuera by done. eauto. }
    destruct (decide (p = 0)) as [->|Hp0].
    { destruct cs as [|c cs]; [cbn in Hz; lia|].
      destruct (extraer_al_frente_cadena s c cs Hcad) as (s' & -> & H). eauto. }
    destruct (partir_en_medio cs (Z.to_nat p)) as (cs1 & a & c & cs2 & -> & Hlen); [lia|].
    replace p with (Z.of_nat (S (length cs1))) by lia.
    destruct cs2 as [|b cs2].
    + destruct (extraer_al_final_cadena s cs1 a c Hcad) as (s' & -> & H). eauto.
    + destruct (extraer_en_medio_cadena s cs1 a c b cs2 Hcad) as (s' & -> & H). eauto.
  - destruct (decide (Z.of_nat (length ids) = size s)) as [Hlen|Hlen];
      [|rewrite reordenar_otra_cantidad by done; eauto].
    destruct (decide (Forall (λ i, i ∈ cs.*2) ids)) as [Hall|Hno].
    + rewrite Forall_forall in Hall.
      destruct (reordenar_cadena fuel ids s cs Hcad) as (s' & cs' & -> & H & _);
        [lia|done..|eauto].
    + apply not_Forall_Exists in Hno; [|solve_decision].
      apply Exists_exists in Hno as (i & Hi & Hni).
      erewrite reordenar_id_ajeno by done. eauto.
Qed.

(** ** Whatever the table holds, a finished walk leaves a chain *)

(** One turn of the loop behind a node [a] that is not the newest. *)
Lemma seguir_enganchar fuel (dict : gmap Z Vuelo.t) i r a n s :
  i ≠ 0 →
  dict !! i = Some r →
  nodos s !! a = Some n →
  a ≠ libre s →
  seguir (S fuel) dict (Some i) a s =
    seguir fuel dict (Vuelo.siguiente_id r) (libre s)
      {| nodos :=
           <[a := {| Nodo.vuelo := Nodo.vuelo n; Nodo.anterior := Nodo.anterior n;
                     Nodo.siguiente := Some (libre s) |}]>
             (<[libre s := {| Nodo.vuelo := Vuelo.id r; Nodo.anterior := Some a;
                              Nodo.siguiente := None |}]>
                (<[libre s := {| Nodo.vuelo := Vuelo.id r; Nodo.anterior := None;
                                 Nodo.siguiente := None |}]> (nodos s)));
         libre := S (libre s);
         cabeza := cabeza s;
         cola := cola s;
         size := size s + 1;
         session := session s |}.
Proof.
  intros Hi Hr Ha Hne. cbn [seguir]. rewrite Hr.
  decide_bool (i =? 0) false. cbn [negb andb].
  rewrite bool_decide_eq_true_2 by eauto.
  unfold bind. unfold Nodo_init at 1. cbn.
  by repeat paso.
Qed.

Lemma seguir_cadena (dict : gmap Z Vuelo.t) fuel :
  ∀ sid s pcs a,
    cadena (con_cola (Some a.1) s) (pcs ++ [a]) →
    (∃ s' ult cs2,
       seguir fuel dict sid a.1 s = (s', Ok ult) ∧
       cadena (con_cola (Some ult) s') ((pcs ++ [a]) ++ cs2)) ∨
    (∃ s', seguir fuel dict sid a.1 s = (s', Agotado)).
Proof.
  induction fuel as [|fuel IH]; intros sid s pcs a Hcad.
  - destruct sid as [i|]; cbn [seguir].
    + destruct (negb (i =? 0) && bool_decide (is_Some (dict !! i))).
      * right. by eexists.
      * left. exists s, a.1, []. by rewrite app_nil_r.
    + left. exists s, a.1, []. by rewrite app_nil_r.
  - assert (∀ i, seguir (S fuel) dict (Some i) a.1 s = (s, Ok a.1) ∨
                 i ≠ 0 ∧ is_Some (dict !! i)) as Hcaso.
    { intros i. cbn [seguir]. destruct (Z.eqb_spec i 0) as [->|Hi0]; [by left|].
      cbn [negb andb]. case_bool_decide; [by right|by left]. }
    destruct sid as [i|]; [|left; exists s, a.1, []; by rewrite app_nil_r].
    destruct (Hcaso i) as [E|[Hi0 [r Hr]]].
    { left. exists s, a.1, []. by rewrite app_nil_r. }
    pose proof Hcad as [Hsg Hc Hl Hz Hnd Hf]. cbn in Hsg, Hf.
    apply seg_app in Hsg as [Hs1 [Hs2 _]]. cbn in Hs2.
    assert (a.1 ≠ libre s) as Hne.
    { intros E. assert (a.1 < libre s)%nat; [|lia]. apply Hf. eauto. }
    rewrite (seguir_enganchar fuel dict i r a.1 _ s Hi0 Hr Hs2 Hne). cbn.
    match goal with
    | |- context [seguir fuel _ ?sg _ ?s1] =>
        destruct (IH sg s1 (pcs ++ [a]) (libre s, Vuelo.id r))
          as [(s' & ult & cs2 & E & Hcad')|(s' & E)]
    end.
    + eapply cadena_ext;
        [exact (cadena_enganchar _ pcs a (Vuelo.id r) (session s) Hcad)|cbn; try done..].
    + left. cbn in E.
      exists s', ult, ((libre s, Vuelo.id r) :: cs2). split; [done|].
      by rewrite <- app_assoc in Hcad'.
    + right. cbn in E. by eexists.
Qed.

Lemma cargar_no_vacia fuel b primero resto :
  filas b = primero :: resto →
  ListaVuelos_init fuel b =
    match seguir fuel (indice (filas b))
            (Vuelo.siguiente_id (cabeza_elegida primero (filas b))) O
            (con_primer_nodo b (Vuelo.id (cabeza_elegida primero (filas b)))) with
    | (s', Ok ult) => (con_cola (Some ult) s', Ok tt)
    | (s', Raise _) => (con_size 0 (con_cola None (con_cabeza None s')), Ok tt)
    | (s', Agotado) => (s', Agotado)
    end.
Proof.
  intros Efs.
  unfold ListaVuelos_init, _cargar_desde_bd, try_except, bind, cabeza_elegida.
  cbn [leer recien_creada session]. rewrite Efs. cbv beta iota zeta.
  unfold Nodo_init at 1. cbn -[seguir indice find].
  match goal with
  | |- context [seguir fuel ?d ?sg O ?s1] =>
      match goal with
      | |- _ = (let (_, _) := ?t in _) => change t with (seguir fuel d sg O s1)
      end;
      by destruct (seguir fuel d sg O s1) as [? []]
  end.
Qed.

Lemma cadena_con_primer_nodo b v : cadena (con_cola (Some O) (con_primer_nodo b v)) [(O, v)].
Proof.
  split; try done; cbn.
  - apply NoDup_singleton.
  - intros d H. apply lookup_insert_is_Some in H as [<-|[_ [x H]]]; [lia|].
    by rewrite lookup_empty in H.
Qed.

Lemma cargar_cadena fuel b :
  (∃ s' cs, ListaVuelos_init fuel b = (s', Ok tt) ∧ cadena s' cs) ∨
  (∃ s', ListaVuelos_init fuel b = (s', Agotado)).
Proof.
  destruct (filas b) as [|primero resto] eqn:Efs.
  { left. exists (recien_creada b), []. split; [|apply cadena_recien_creada].
    unfold ListaVuelos_init, _cargar_desde_bd, try_except, bind. cbn. by rewrite Efs. }
  rewrite (cargar_no_vacia fuel b primero resto Efs). rewrite Efs.
  destruct (seguir_cadena (indice (primero :: resto)) fuel
              (Vuelo.siguiente_id (cabeza_elegida primero (primero :: resto)))
              (con_primer_nodo b (Vuelo.id (cabeza_elegida primero (primero :: resto))))
              [] (O, Vuelo.id (cabeza_elegida primero (primero :: resto))))
    as [(s' & ult & cs2 & E & Hcad')|(s' & E)].
  - apply cadena_con_primer_nodo.
  - left. cbn [fst] in E. rewrite E. eauto.
  - right. cbn [fst] in E. rewrite E. eauto.
Qed.

(** Every such state holds a well formed chain. *)
Lemma alcanzable_cadena s : alcanzable s → ∃ cs, cadena s cs.
Proof.
  induction 1 as [fuel b s E|fuel op s _ [cs Hcad] Hfuel|b s _ [cs Hcad]].
  - destruct (cargar_cadena fuel b) as [(s' & cs & E' & Hcad)|(s' & E')];
      rewrite E in E'; [|done].
    injection E' as ->. eauto.
  - apply (ejecutar_cadena fuel op s cs Hcad).
    rewrite (cad_size _ _ Hcad) in Hfuel. lia.
  - exists cs. by apply cadena_con_session.
Qed.

(** ** The queue as the list of its flights *)

Lemma obtener_primero_cadena s cs :
  cadena s cs → obtener_primero s = (s, Ok (head cs.*2)).
Proof.
  intros [Hs Hc Hl Hz Hn Hf]. unfold obtener_primero, bind. cbn. rewrite Hc.
  destruct cs as [|c cs]; [done|]. destruct Hs as [H1 _]. cbn.
  by erewrite attr_ok by exact H1.
Qed.

Lemma obtener_ultimo_cadena s cs :
  cadena s cs → obtener_ultimo s = (s, Ok (last cs.*2)).
Proof.
  intros [Hs Hc Hl Hz Hn Hf]. unfold obtener_ultimo, bind. cbn. rewrite Hl.
  destruct cs as [|c cs _] using rev_ind; [done|].
  rewrite !ultima_snoc, fmap_snoc, last_snoc. cbn.
  apply seg_app in Hs as [_ [H1 _]].
  by erewrite attr_ok by exact H1.
Qed.

(** Insertion in front of the node at position [length cs1], whichever of
    the three branches of the method that is. *)
Lemma insertar_en_posicion_cadena v s cs1 cs2 :
  cadena s (cs1 ++ cs2) →
  ∃ s', insertar_en_posicion v (Z.of_nat (length cs1)) s = (s', Ok v) ∧
        cadena s' (cs1 ++ (libre s, v) :: cs2).
Proof.
  intros Hcad. pose proof (cad_size _ _ Hcad) as Hz. rewrite length_app in Hz.
  destruct cs1 as [|a cs1 _] using rev_ind.
  - destruct (insertar_al_frente_cadena v s cs2 Hcad) as (s' & E & H & _).
    exists s'. split; [|done]. change (Z.of_nat (length [])) with 0.
    unfold insertar_en_posicion, bind. cbn.
    by decide_bool (0 >? size s) false.
  - destruct cs2 as [|c cs2].
    + rewrite app_nil_r in Hcad.
      destruct (insertar_al_final_cadena v s (cs1 ++ [a]) Hcad) as (s' & E & H & _).
      exists s'. split; [|done].
      rewrite length_app in Hz |- *. cbn in Hz |- *.
      unfold insertar_en_posicion, bind. cbn.
      replace (Z.of_nat (length cs1 + 1)) with (size s) by lia.
      decide_bool (size s <? 0) false. decide_bool (size s >? size s) false.
      decide_bool (size s =? 0) false. by rewrite Z.eqb_refl.
    + rewrite <- app_assoc in Hcad |- *. cbn in Hcad |- *.
      destruct (insertar_en_medio_cadena v s cs1 a c cs2 Hcad) as (s' & E & H & _).
      exists s'. split; [|done].
      replace (Z.of_nat (length (cs1 ++ [a]))) with (Z.of_nat (S (length cs1)))
        by (rewrite length_app; cbn; lia).
      done.
Qed.

(** X1: on a well formed queue [insertar_al_frente] returns the flight it
    was given and puts it first: the listing is the flight followed by the
    old listing, [obtener_primero] answers it and [longitud] is one more,
    whatever the table holds and whichever commits fail. *)
Theorem insertar_al_frente_lista v s cs fuel :
  cadena s cs → (length cs < fuel)%nat →
  ∃ s', insertar_al_frente v s = (s', Ok v) ∧
        listar_todos fuel s' = (s', Ok (v :: cs.*2)) ∧
        obtener_primero s' = (s', Ok (Some v)) ∧
        longitud s' = (s', Ok (size s + 1)).
Proof.
  intros Hcad Hfuel.
  destruct (insertar_al_frente_cadena v s cs Hcad) as (s' & E & Hcad' & _).
  exists s'. split; [done|]. split; [|split].
  - by rewrite (listar_todos_cadena fuel s' _ Hcad') by (cbn; lia).
  - by rewrite (obtener_primero_cadena s' _ Hcad').
  - unfold longitud, leer.
    rewrite (cad_size _ _ Hcad'), (cad_size _ _ Hcad). cbn [length].
    do 2 f_equal. lia.
Qed.

Lemma insertar_al_frente_lista_witness :
  ∃ s', insertar_al_frente 3 dos_vuelos = (s', Ok 3) ∧
        listar_todos 3 s' = (s', Ok [3; 1; 2]) ∧
        obtener_primero s' = (s', Ok (Some 3)) ∧
        longitud s' = (s', Ok 3).
Proof.
  apply (insertar_al_frente_lista 3 dos_vuelos [(0%nat, 1); (1%nat, 2)] 3).
  - exact cadena_dos_vuelos.
  - cbn. lia.
Defined.

(** X2: on a well formed queue [insertar_al_final] returns the flight it
    was given and puts it last: the listing is the old listing followed by
    the flight, [obtener_ultimo] answers it and [longitud] is one more,
    whatever the table holds and whichever commits fail. *)
Theorem insertar_al_final_lista v s cs fuel :
  cadena s cs → (length cs < fuel)%nat →
  ∃ s', insertar_al_final v s = (s', Ok v) ∧
        listar_todos fuel s' = (s', Ok (cs.*2 ++ [v])) ∧
        obtener_ultimo s' = (s', Ok (Some v)) ∧
        longitud s' = (s', Ok (size s + 1)).
Proof.
  intros Hcad Hfuel.
  destruct (insertar_al_final_cadena v s cs Hcad) as (s' & E & Hcad' & _).
  exists s'. split; [done|]. split; [|split].
  - rewrite (listar_todos_cadena fuel s' _ Hcad') by (rewrite length_app; cbn; lia).
    by rewrite fmap_snoc.
  - rewrite (obtener_ultimo_cadena s' _ Hcad').
    by rewrite fmap_snoc, last_snoc.
  - unfold longitud, leer.
    rewrite (cad_size _ _ Hcad'), (cad_size _ _ Hcad), length_app. cbn [length].
    do 2 f_equal. lia.
Qed.

Lemma insertar_al_final_lista_witness :
  ∃ s', insertar_al_final 3 dos_vuelos = (s', Ok 3) ∧
        listar_todos 3 s' = (s', Ok [1; 2; 3]) ∧
        obtener_ultimo s' = (s', Ok (Some 3)) ∧
        longitud s' = (s', Ok 3).
Proof.
  apply (insertar_al_final_lista 3 dos_vuelos [(0%nat, 1); (1%nat, 2)] 3).
  - exact cadena_dos_vuelos.
  - cbn. lia.
Defined.

(** Insertion at a position given as a number. *)
Lemma insertar_en_posicion_en v p s cs :
  cadena s cs → 0 ≤ p ≤ size s →
  ∃ s', insertar_en_posicion v p s = (s', Ok v) ∧
        cadena s' (take (Z.to_nat p) cs ++ (libre s, v) :: drop (Z.to_nat p) cs).
Proof.
  intros Hcad Hp. pose proof (cad_size _ _ Hcad) as Hz.
  rewrite <- (take_drop (Z.to_nat p) cs) in Hcad.
  assert (Z.of_nat (length (take (Z.to_nat p) cs)) = p) as Hlen.
  { rewrite length_take. lia. }
  destruct (insertar_en_posicion_cadena v s _ _ Hcad) as (s' & E & Hcad').
  rewrite Hlen in E. eauto.
Qed.

(** X3: [insertar_en_posicion] at any position from 0 to [size] included
    returns the flight and puts it at that position: the flights before the
    position stay, then comes the new one, then the rest, and [size] is one
    more. *)
Theorem insertar_en_posicion_lista v p s cs fuel :
  cadena s cs → 0 ≤ p ≤ size s → (length cs < fuel)%nat →
  ∃ s', insertar_en_posicion v p s = (s', Ok v) ∧
        listar_todos fuel s' =
          (s', Ok (take (Z.to_nat p) cs.*2 ++ v :: drop (Z.to_nat p) cs.*2)) ∧
        size s' = size s + 1.
Proof.
  intros Hcad Hp Hfuel. pose proof (cad_size _ _ Hcad) as Hz.
  destruct (insertar_en_posicion_en v p s cs Hcad Hp) as (s' & E & Hcad').
  exists s'. split; [done|]. split.
  - rewrite (listar_todos_cadena fuel s' _ Hcad').
    + by rewrite fmap_app, fmap_cons, fmap_take, fmap_drop.
    + rewrite length_app. cbn. rewrite length_take, length_drop. lia.
  - rewrite (cad_size _ _ Hcad'), Hz, length_app. cbn.
    rewrite length_take, length_drop. lia.
Qed.

Lemma insertar_en_posicion_lista_witness :
  ∃ s', insertar_en_posicion 3 1 dos_vuelos = (s', Ok 3) ∧
        listar_todos 3 s' = (s', Ok [1; 3; 2]) ∧
        size s' = 3.
Proof.
  apply (insertar_en_posicion_lista 3 1 dos_vuelos [(0%nat, 1); (1%nat, 2)] 3).
  - exact cadena_dos_vuelos.
  - cbn. lia.
  - cbn. lia.
Defined.

(** Extraction at a position given as a number. *)
Lemma extraer_de_posicion_en p s cs :
  cadena s cs → 0 ≤ p < size s →
  ∃ s' c, cs !! Z.to_nat p = Some c ∧
          extraer_de_posicion p s = (s', Ok c.2) ∧
          cadena s' (delete (Z.to_nat p) cs).
Proof.
  intros Hcad Hp. pose proof (cad_size _ _ Hcad) as Hz.
  destruct (lookup_lt_is_Some_2 cs (Z.to_nat p)) as [c Hc]; [lia|].
  pose proof (take_drop_middle _ _ _ Hc) as Ecs.
  assert (Z.of_nat (length (take (Z.to_nat p) cs)) = p) as Hlen.
  { rewrite length_take. lia. }
  rewrite <- Ecs in Hcad.
  destruct (extraer_de_posicion_cadena s _ c _ Hcad) as (s' & E & Hcad').
  rewrite Hlen in E. exists s', c. by rewrite delete_take_drop.
Qed.

(** X4: [extraer_de_posicion] at any position from 0 to [size - 1] returns
    the flight queued at that position and takes it out: the listing is the
    old one without that position and [size] is one less; the last flight
    extracted leaves [cabeza] and [cola] at [None]. *)
Theorem extraer_de_posicion_lista p s cs fuel :
  cadena s cs → 0 ≤ p < size s → (length cs ≤ fuel)%nat →
  ∃ s' v, cs.*2 !! Z.to_nat p = Some v ∧
          extraer_de_posicion p s = (s', Ok v) ∧
          listar_todos fuel s' = (s', Ok (delete (Z.to_nat p) cs.*2)) ∧
          size s' = size s - 1 ∧
          (size s = 1 → cabeza s' = None ∧ cola s' = None).
Proof.
  intros Hcad Hp Hfuel. pose proof (cad_size _ _ Hcad) as Hz.
  destruct (extraer_de_posicion_en p s cs Hcad Hp) as (s' & c & Hc & E & Hcad').
  assert (length (delete (Z.to_nat p) cs) = (length cs - 1)%nat) as Hlen.
  { apply length_delete. eauto. }
  exists s', c.2. split; [|split; [done|split; [|split]]].
  - by rewrite list_lookup_fmap, Hc.
  - rewrite (listar_todos_cadena fuel s' _ Hcad') by lia.
    by rewrite !delete_take_drop, fmap_app, fmap_take, fmap_drop.
  - rewrite (cad_size _ _ Hcad'), Hz, Hlen. lia.
  - intros H1. assert (delete (Z.to_nat p) cs = []) as Evac.
    { apply nil_length_inv. lia. }
    rewrite Evac in Hcad'.
    by rewrite (cad_cabeza _ _ Hcad'), (cad_cola _ _ Hcad').
Qed.

Lemma extraer_de_posicion_lista_witness :
  ∃ s' v, [1; 2] !! 1%nat = Some v ∧
          extraer_de_posicion 1 dos_vuelos = (s', Ok v) ∧
          listar_todos 2 s' = (s', Ok [1]) ∧
          size s' = 1 ∧
          (size dos_vuelos = 1 → cabeza s' = None ∧ cola s' = None).
Proof.
  apply (extraer_de_posicion_lista 1 dos_vuelos [(0%nat, 1); (1%nat, 2)] 2).
  - exact cadena_dos_vuelos.
  - cbn. lia.
  - cbn. lia.
Defined.

(** X5: in every state the engine can reach, the listing, [size] and the
    two ends agree: [listar_todos] answers a list of [size] flights without
    changing anything, [cabeza] and [cola] are [None] exactly when that list
    is empty, and [obtener_primero] and [obtener_ultimo] answer its first
    and last flight. *)
Theorem alcanzable_invariantes s :
  alcanzable s →
  ∃ vs, (∀ fuel, (length vs ≤ fuel)%nat → listar_todos fuel s = (s, Ok vs)) ∧
        size s = Z.of_nat (length vs) ∧
        (cabeza s = None ↔ vs = []) ∧
        (cola s = None ↔ vs = []) ∧
        obtener_primero s = (s, Ok (head vs)) ∧
        obtener_ultimo s = (s, Ok (last vs)).
Proof.
  intros [cs Hcad]%alcanzable_cadena. exists cs.*2.
  split; [|split; [|split; [|split; [|split]]]].
  - intros fuel Hfuel. apply listar_todos_cadena; [done|].
    by rewrite length_fmap in Hfuel.
  - by rewrite length_fmap, (cad_size _ _ Hcad).
  - rewrite (cad_cabeza _ _ Hcad). by destruct cs.
  - rewrite (cad_cola _ _ Hcad).
    destruct cs as [|c cs _] using rev_ind; [done|].
    rewrite ultima_snoc, fmap_snoc. split; [done|].
    intros H. by apply app_nil in H as [_ ?].
  - by apply obtener_primero_cadena.
  - by apply obtener_ultimo_cadena.
Qed.

Lemma alcanzable_invariantes_witness :
  ∃ vs, (∀ fuel, (length vs ≤ fuel)%nat →
           listar_todos fuel (ejecutar 0 (InsertarAlFinal 7) vacia).1 =
             ((ejecutar 0 (InsertarAlFinal 7) vacia).1, Ok vs)) ∧
        size (ejecutar 0 (InsertarAlFinal 7) vacia).1 = Z.of_nat (length vs) ∧
        (cabeza (ejecutar 0 (InsertarAlFinal 7) vacia).1 = None ↔ vs = []) ∧
        (cola (ejecutar 0 (InsertarAlFinal 7) vacia).1 = None ↔ vs = []) ∧
        obtener_primero (ejecutar 0 (InsertarAlFinal 7) vacia).1 =
          ((ejecutar 0 (InsertarAlFinal 7) vacia).1, Ok (head vs)) ∧
        obtener_ultimo (ejecutar 0 (InsertarAlFinal 7) vacia).1 =
          ((ejecutar 0 (InsertarAlFinal 7) vacia).1, Ok (last vs)).
Proof.
  apply (alcanzable_invariantes (ejecutar 0 (InsertarAlFinal 7) vacia).1).
  apply alcanzable_paso.
  - by apply (alcanzable_init 0 tabla_vacia).
  - cbn. lia.
Defined.

(** ** Methods that only read *)

(** Reading an attribute answers or raises, and changes nothing. *)
Lemma attr_caso {A} (f : Nodo.t → A) r s :
  (∃ y, attr f r s = (s, Ok y)) ∨ attr f r s = (s, Raise AttributeError).
Proof.
  unfold attr, bind, nodo, ret. destruct r as [d|]; [|by right].
  destruct (nodos s !! d); [left; by eexists|by right].
Qed.

Lemma listar_desde_estado fuel :
  ∀ actual acc s, (listar_desde fuel actual acc s).1 = s.
Proof.
  induction fuel as [|fuel IH]; intros [d|] acc s; cbn [listar_desde]; try done.
  unfold bind.
  destruct (attr_caso Nodo.vuelo (Some d) s) as [[y ->]| ->]; [|done].
  destruct (attr_caso Nodo.siguiente (Some d) s) as [[z ->]| ->]; [|done].
  apply IH.
Qed.

(** X6: the four reading methods leave the engine, the nodes and the
    session exactly as they were, in every state (well formed or not) and
    however they end. *)
Theorem consultas_sin_efecto fuel s :
  (obtener_primero s).1 = s ∧
  (obtener_ultimo s).1 = s ∧
  (longitud s).1 = s ∧
  (listar_todos fuel s).1 = s.
Proof.
  split; [|split; [|split]].
  - unfold obtener_primero, bind, attr, bind, nodo, ret. cbn.
    destruct (cabeza s) as [d|]; [|done]. by destruct (nodos s !! d).
  - unfold obtener_ultimo, bind, attr, bind, nodo, ret. cbn.
    destruct (cola s) as [d|]; [|done]. by destruct (nodos s !! d).
  - done.
  - unfold listar_todos, bind. cbn. apply listar_desde_estado.
Qed.

(** ** What the engine does to the rows *)

Section conserva.
Context (R : Session → Session → Prop) `{!Reflexive R} `{!Transitive R}.

Lemma conserva_ret {A} (a : A) : conserva R (ret a).
Proof. intros s. cbn. reflexivity. Qed.

Lemma conserva_raise {A} e : conserva R (@raise A e).
Proof. intros s. cbn. reflexivity. Qed.

Lemma conserva_agotado {A} : conserva R (@agotado A).
Proof. intros s. cbn. reflexivity. Qed.

Lemma conserva_leer {A} (f : Estado → A) : conserva R (leer f).
Proof. intros s. cbn. reflexivity. Qed.

Lemma conserva_bind {A B} (c : M A) (k : A → M B) :
  conserva R c → (∀ a, conserva R (k a)) → conserva R (bind c k).
Proof.
  intros Hc Hk s. unfold bind. specialize (Hc s).
  destruct (c s) as [s' [a| |]]; [|done..].
  etrans; [exact Hc|apply Hk].
Qed.

Lemma conserva_try_except {A} (c : M A) (h : Excepcion → M A) :
  conserva R c → (∀ e, conserva R (h e)) → conserva R (try_except c h).
Proof.
  intros Hc Hh s. unfold try_except. specialize (Hc s).
  destruct (c s) as [s' [a|e|]]; [done| |done].
  etrans; [exact Hc|apply Hh].
Qed.

Lemma conserva_poner_cabeza c : conserva R (poner_cabeza c).
Proof. intros s. cbn. reflexivity. Qed.

Lemma conserva_poner_cola c : conserva R (poner_cola c).
Proof. intros s. cbn. reflexivity. Qed.

Lemma conserva_poner_size n : conserva R (poner_size n).
Proof. intros s. cbn. reflexivity. Qed.

Lemma conserva_Nodo_init v : conserva R (Nodo_init v).
Proof. intros s. unfold Nodo_init. cbn. reflexivity. Qed.

Lemma conserva_attr {A} (f : Nodo.t → A) r : conserva R (attr f r).
Proof.
  intros s. destruct (attr_caso f r s) as [[y ->]| ->]; cbn; reflexivity.
Qed.

Lemma conserva_poner_anterior r x : conserva R (poner_anterior r x).
Proof.
  intros s. unfold poner_anterior. destruct r as [d|]; [|reflexivity].
  destruct (nodos s !! d); cbn; reflexivity.
Qed.

Lemma conserva_poner_siguiente r x : conserva R (poner_siguiente r x).
Proof.
  intros s. unfold poner_siguiente. destruct r as [d|]; [|reflexivity].
  destruct (nodos s !! d); cbn; reflexivity.
Qed.

End conserva.

Lemma fila_evoluciona_refl r : fila_evoluciona r r.
Proof. by split. Qed.

Lemma fila_evoluciona_trans r1 r2 r3 :
  fila_evoluciona r1 r2 → fila_evoluciona r2 r3 → fila_evoluciona r1 r3.
Proof.
  intros (E1 & A1 & G1) (E2 & A2 & G2). split; [congruence|]. split; auto.
Qed.

#[local] Instance tabla_evoluciona_refl : Reflexive tabla_evoluciona.
Proof.
  intros b. apply Forall_Forall2_diag, Forall_forall. intros r _.
  apply fila_evoluciona_refl.
Qed.

#[local] Instance tabla_evoluciona_trans : Transitive tabla_evoluciona.
Proof. intros b1 b2 b3. apply Forall2_trans, fila_evoluciona_trans. Qed.

(** A commit of [_actualizar_bd], failed or not. *)
Lemma tabla_evoluciona_commit v a g b : tabla_evoluciona b (tras_commit v a g b).
Proof.
  unfold tras_commit.
  assert (tabla_evoluciona b
            {| filas := actualizar_fila v (asignar a g) (filas b);
               fallos := tail (fallos b) |}) as H.
  { unfold tabla_evoluciona, actualizar_fila. cbn.
    change (map ?f ?l) with (f <$> l). apply Forall2_fmap_r.
    apply Forall_Forall2_diag, Forall_forall. intros r _. cbn.
    case_decide; [|apply fila_evoluciona_refl].
    split; [done|]. split; intros Hs; cbn; [by destruct a|by destruct g]. }
  destruct (fallos b) as [|[] resto]; [done| |done].
  apply Forall_Forall2_diag, Forall_forall. intros r _. apply fila_evoluciona_refl.
Qed.

Lemma conserva__actualizar_bd v a g : conserva tabla_evoluciona (_actualizar_bd v a g).
Proof. intros s. rewrite _actualizar_bd_eq. cbn. apply tabla_evoluciona_commit. Qed.

Create HintDb conserva.
#[local] Hint Resolve conserva__actualizar_bd : conserva.

Ltac conserva_paso :=
  match goal with
  | |- conserva _ (bind _ _) => apply conserva_bind; [apply _| |intros ?]
  | |- conserva _ (try_except _ _) => apply conserva_try_except; [apply _| |intros ?]
  | |- conserva _ (let _ := _ in _) => cbv zeta
  | |- conserva _ (match ?x with _ => _ end) => destruct x
  | |- conserva _ (ret _) => apply conserva_ret; apply _
  | |- conserva _ (raise _) => apply conserva_raise; apply _
  | |- conserva _ agotado => apply conserva_agotado; apply _
  | |- conserva _ (leer _) => apply conserva_leer; apply _
  | |- conserva _ (poner_cabeza _) => apply conserva_poner_cabeza; apply _
  | |- conserva _ (poner_cola _) => apply conserva_poner_cola; apply _
  | |- conserva _ (poner_size _) => apply conserva_poner_size; apply _
  | |- conserva _ (Nodo_init _) => apply conserva_Nodo_init; apply _
  | |- conserva _ (attr _ _) => apply conserva_attr; apply _
  | |- conserva _ (poner_anterior _ _) => apply conserva_poner_anterior; apply _
  | |- conserva _ (poner_siguiente _ _) => apply conserva_poner_siguiente; apply _
  | |- conserva _ _ => solve [auto with conserva]
  end.

Lemma conserva_insertar_al_frente v : conserva tabla_evoluciona (insertar_al_frente v).
Proof. unfold insertar_al_frente. repeat conserva_paso. Qed.

Lemma conserva_insertar_al_final v : conserva tabla_evoluciona (insertar_al_final v).
Proof. unfold insertar_al_final. repeat conserva_paso. Qed.

Lemma conserva_avanzar R `{!Reflexive R} `{!Transitive R} n actual :
  conserva R (avanzar n actual).
Proof. revert actual. induction n; intros actual; cbn; repeat conserva_paso. Qed.

#[local] Hint Resolve conserva_insertar_al_frente conserva_insertar_al_final : conserva.

Lemma conserva_insertar_en_posicion v p :
  conserva tabla_evoluciona (insertar_en_posicion v p).
Proof.
  unfold insertar_en_posicion. repeat conserva_paso; apply conserva_avanzar; apply _.
Qed.

Lemma conserva_extraer_de_posicion p : conserva tabla_evoluciona (extraer_de_posicion p).
Proof.
  unfold extraer_de_posicion. repeat conserva_paso; apply conserva_avanzar; apply _.
Qed.

Lemma conserva_listar_desde R `{!Reflexive R} `{!Transitive R} fuel actual vs :
  conserva R (listar_desde fuel actual vs).
Proof.
  revert actual vs. induction fuel; intros actual vs; cbn; repeat conserva_paso.
Qed.

Lemma conserva_recoger R `{!Reflexive R} `{!Transitive R} fuel actual vuelos :
  conserva R (recoger fuel actual vuelos).
Proof.
  revert actual vuelos. induction fuel; intros actual vuelos; cbn; repeat conserva_paso.
Qed.

Lemma conserva_reinsertar vuelos ids : conserva tabla_evoluciona (reinsertar vuelos ids).
Proof. induction ids; cbn; unfold elemento; repeat conserva_paso. Qed.

Lemma conserva_reordenar fuel ids : conserva tabla_evoluciona (reordenar fuel ids).
Proof.
  unfold reordenar, listar_todos. repeat conserva_paso;
    first [apply conserva_recoger|apply conserva_listar_desde|apply conserva_reinsertar];
    apply _.
Qed.

#[local] Hint Resolve conserva_insertar_en_posicion conserva_extraer_de_posicion
  conserva_reordenar : conserva.

(** X7: on flights that have a row, no mutating method adds, deletes, moves
    or re-keys a row or changes its data, and none clears a link that is
    set: when every flight held by a node or handed over by the call has a
    row, then after the call, however it ends, the table has the same rows
    in the same order, each with the fields it had, except that links may
    have been set or replaced.  So an extracted flight keeps its row. *)
Theorem filas_nunca_retroceden fuel op s :
  con_filas s op →
  Forall2 fila_evoluciona
    (filas (session s)) (filas (session (ejecutar fuel op s).1)).
Proof.
  intros _. revert s. change (conserva tabla_evoluciona (ejecutar fuel op)).
  destruct op; cbn [ejecutar]; repeat conserva_paso.
Qed.

Lemma filas_nunca_retroceden_witness :
  Forall2 fila_evoluciona
    (filas (session dos_vuelos))
    (filas (session (ejecutar 2 (ExtraerDePosicion 0) dos_vuelos).1)).
Proof.
  apply (filas_nunca_retroceden 2 (ExtraerDePosicion 0) dos_vuelos).
  split.
  - intros d n H. cbn in H.
    apply lookup_insert_Some in H as [[_ <-]|[_ H]]; [by vm_compute; left|].
    apply lookup_insert_Some in H as [[_ <-]|[_ H]].
    + vm_compute. right. by left.
    + by rewrite lookup_empty in H.
  - intros v H. by apply elem_of_nil in H.
Defined.

(** ** What rebuilding answers *)

Lemma conserva_seguir fuel (dict : gmap Z Vuelo.t) :
  ∀ sid a, conserva eq (seguir fuel dict sid a).
Proof.
  induction fuel as [|fuel IH]; intros sid a; cbn [seguir];
    repeat conserva_paso; apply IH.
Qed.

Lemma conserva__cargar_desde_bd fuel : conserva eq (_cargar_desde_bd fuel).
Proof. unfold _cargar_desde_bd. repeat conserva_paso. apply conserva_seguir. Qed.

(** X9: [ListaVuelos(session)] never raises, whatever the table holds: it
    either is still walking when the fuel is spent, or it answers with a
    consistent queue ([listar_todos] answers [size] flights and changes
    nothing) on the same session, whose first flight is the first row
    without [anterior_id], else the first row; on an empty table the queue
    is empty. *)
Theorem cargar_resultado fuel b :
  (∃ s', ListaVuelos_init fuel b = (s', Agotado)) ∨
  (∃ s' vs,
     ListaVuelos_init fuel b = (s', Ok tt) ∧
     (∀ fuel', (length vs ≤ fuel')%nat → listar_todos fuel' s' = (s', Ok vs)) ∧
     size s' = Z.of_nat (length vs) ∧
     session s' = b ∧
     head vs =
       (λ primero, Vuelo.id (cabeza_elegida primero (filas b))) <$> head (filas b)).
Proof.
  pose proof (conserva__cargar_desde_bd fuel (recien_creada b)) as Hses.
  change (_cargar_desde_bd fuel (recien_creada b)) with (ListaVuelos_init fuel b) in Hses.
  cbn [recien_creada session] in Hses.
  destruct (filas b) as [|primero resto] eqn:Efs.
  { right. exists (recien_creada b), []. split; [|split; [|done]].
    - unfold ListaVuelos_init, _cargar_desde_bd, try_except, bind. cbn. by rewrite Efs.
    - intros fuel' Hfuel'.
      by apply (listar_todos_cadena fuel' _ [] (cadena_recien_creada b)). }
  rewrite (cargar_no_vacia fuel b primero resto Efs) in Hses |- *. rewrite Efs in Hses |- *.
  destruct (seguir_cadena (indice (primero :: resto)) fuel
              (Vuelo.siguiente_id (cabeza_elegida primero (primero :: resto)))
              (con_primer_nodo b (Vuelo.id (cabeza_elegida primero (primero :: resto))))
              [] (O, Vuelo.id (cabeza_elegida primero (primero :: resto))))
    as [(s' & ult & cs2 & E & Hcad')|(s' & E)].
  - apply cadena_con_primer_nodo.
  - right. cbn [fst] in E. rewrite E in Hses |- *. cbn in Hcad'.
    exists (con_cola (Some ult) s'),
      (Vuelo.id (cabeza_elegida primero (primero :: resto)) :: cs2.*2).
    split; [done|]. split; [|split; [|done]].
    + intros fuel' Hfuel'. cbn in Hfuel'. rewrite length_fmap in Hfuel'.
      by rewrite (listar_todos_cadena fuel' _ _ Hcad') by (cbn; lia).
    + rewrite (cad_size _ _ Hcad'). cbn. by rewrite length_fmap.
  - left. cbn [fst] in E. rewrite E. eauto.
Qed.

(** The row [_cargar_desde_bd] starts from, on a table that has the chain
    [v :: vs] and no other row without [anterior_id]. *)
Lemma cabeza_elegida_enlazada fs primero v vs :
  NoDup (map Vuelo.id fs) →
  segbd fs None (v :: vs) None →
  (∀ r, r ∈ fs → Vuelo.anterior_id r = None → Vuelo.id r = v) →
  Vuelo.id (cabeza_elegida primero fs) = v ∧
  Vuelo.siguiente_id (cabeza_elegida primero fs) = primer_id vs None.
Proof.
  intros Hn [Hv _] Hunica.
  unfold enlaces in Hv. destruct (buscar v fs) as [r0|] eqn:E0; [|done].
  cbn in Hv. injection Hv as Ha0 Hg0. unfold cabeza_elegida.
  destruct (List.find (λ r, bool_decide (Vuelo.anterior_id r = None)) fs) as [r|] eqn:E.
  - apply find_some in E as [Hin Ha].
    apply bool_decide_eq_true in Ha. apply list_elem_of_In in Hin.
    pose proof (buscar_elem fs r Hn Hin) as Hb.
    rewrite (Hunica r Hin Ha) in Hb. rewrite E0 in Hb. injection Hb as <-.
    split; [by eapply buscar_id|done].
  - exfalso. unfold buscar in E0. apply find_some in E0 as [Hin _].
    eapply find_none in E; [|exact Hin]. by rewrite bool_decide_eq_true_2 in E.
Qed.

(** Rebuilding from a table that has the chain [v :: vs]. *)
Lemma cargar_cadena_enlazada fuel b v vs :
  NoDup (map Vuelo.id (filas b)) →
  segbd (filas b) None (v :: vs) None →
  (∀ r, r ∈ filas b → Vuelo.anterior_id r = None → Vuelo.id r = v) →
  (∀ i, i ∈ vs → 0 < i) →
  (length vs ≤ fuel)%nat →
  ∃ s' cs, ListaVuelos_init fuel b = (s', Ok tt) ∧
           cadena s' cs ∧ cs.*2 = v :: vs ∧ session s' = b.
Proof.
  intros Hn Hs Hunica Hpos Hfuel.
  destruct (filas b) as [|primero resto] eqn:Efs.
  { by destruct Hs as [Hv _]. }
  rewrite (cargar_no_vacia fuel b primero resto Efs). rewrite Efs.
  destruct (cabeza_elegida_enlazada _ primero _ _ Hn Hs Hunica) as [-> ->].
  destruct Hs as [_ Hs].
  destruct (seguir_segbd (primero :: resto) vs fuel (con_primer_nodo b v) [] (O, v) v)
    as (s' & cs2 & ult & E & Hcad' & Hvs & Hses); try done.
  { apply cadena_con_primer_nodo. }
  cbn [fst] in E. rewrite E. cbn in Hcad'.
  exists (con_cola (Some ult) s'), ((O, v) :: cs2). split; [done|]. split; [done|].
  split; [|done]. cbn. by rewrite Hvs.
Qed.

(** X10: on a table whose links spell the chain [v :: vs] from the only
    row without [anterior_id] ([v]) to a row without [siguiente_id], with
    positive keys, [ListaVuelos(session)] answers the queue [v :: vs] in
    that order.  Rows that the chain does not reach (the row of a flight
    extracted from the middle, which keeps its links) are left out and do
    not disturb it. *)
Theorem cargar_enlazada fuel b v vs :
  NoDup (map Vuelo.id (filas b)) →
  segbd (filas b) None (v :: vs) None →
  (∀ r, r ∈ filas b → Vuelo.anterior_id r = None → Vuelo.id r = v) →
  (∀ i, i ∈ vs → 0 < i) →
  (length vs ≤ fuel)%nat →
  ∃ s', ListaVuelos_init fuel b = (s', Ok tt) ∧
        listar_todos (S fuel) s' = (s', Ok (v :: vs)) ∧
        size s' = Z.of_nat (S (length vs)) ∧
        session s' = b.
Proof.
  intros Hn Hs Hunica Hpos Hfuel.
  destruct (cargar_cadena_enlazada fuel b v vs Hn Hs Hunica Hpos Hfuel)
    as (s' & cs & E & Hcad & Hvs & Hses).
  assert (length cs = S (length vs)) as Hlen.
  { by rewrite <- (length_fmap snd cs), Hvs. }
  exists s'. split; [done|]. split; [|split; [|done]].
  - rewrite (listar_todos_cadena (S fuel) _ _ Hcad) by lia. by rewrite Hvs.
  - by rewrite (cad_size _ _ Hcad), Hlen.
Qed.

Lemma cargar_enlazada_witness :
  ∃ s', ListaVuelos_init 1 tabla_tras_extraer = (s', Ok tt) ∧
        listar_todos 2 s' = (s', Ok [1; 3]) ∧
        size s' = 2 ∧
        session s' = tabla_tras_extraer.
Proof.
  apply (cargar_enlazada 1 tabla_tras_extraer 1 [3]).
  - apply (bool_decide_unpack _). vm_compute. exact I.
  - vm_compute. repeat split.
  - intros r Hr Ha. cbn in Hr.
    apply elem_of_cons in Hr as [->|Hr]; [done|].
    apply elem_of_cons in Hr as [->|Hr]; [done|].
    apply list_elem_of_singleton in Hr as ->. done.
  - intros i Hi. apply list_elem_of_singleton in Hi as ->. lia.
  - cbn. lia.
Defined.

(** ** The end points *)

#[local] Arguments extraer_de_posicion : simpl never.
#[local] Arguments reordenar : simpl never.

(** X12: the four reading end points on a well formed queue.  The total is
    the number of queued flights, the listing is the queue in order,
    [GET /vuelos/proximo] and [GET /vuelos/ultimo] answer the first and the
    last flight, and 404 exactly when the queue is empty; none of them
    changes the state. *)
Theorem consultas_http fuel s cs :
  cadena s cs → (length cs ≤ fuel)%nat →
  obtener_total_vuelos s = (s, Ok (Z.of_nat (length cs))) ∧
  obtener_proximo_vuelo s =
    (s, match head cs.*2 with
        | Some v => Ok v
        | None => Raise (HTTPException 404)
        end) ∧
  obtener_ultimo_vuelo s =
    (s, match last cs.*2 with
        | Some v => Ok v
        | None => Raise (HTTPException 404)
        end) ∧
  listar_todos_los_vuelos fuel s = (s, Ok cs.*2).
Proof.
  intros Hcad Hfuel. split; [|split; [|split]].
  - unfold obtener_total_vuelos, longitud, leer. by rewrite (cad_size _ _ Hcad).
  - unfold obtener_proximo_vuelo, bind. rewrite (obtener_primero_cadena s cs Hcad).
    by destruct (head cs.*2).
  - unfold obtener_ultimo_vuelo, bind. rewrite (obtener_ultimo_cadena s cs Hcad).
    by destruct (last cs.*2).
  - by apply listar_todos_cadena.
Qed.

Lemma consultas_http_witness :
  obtener_total_vuelos dos_vuelos = (dos_vuelos, Ok 2) ∧
  obtener_proximo_vuelo dos_vuelos = (dos_vuelos, Ok 1) ∧
  obtener_ultimo_vuelo dos_vuelos = (dos_vuelos, Ok 2) ∧
  listar_todos_los_vuelos 2 dos_vuelos = (dos_vuelos, Ok [1; 2]).
Proof.
  apply (consultas_http 2 dos_vuelos [(0%nat, 1); (1%nat, 2)]).
  - exact cadena_dos_vuelos.
  - cbn. lia.
Defined.

(** What a handler [except Exception: raise HTTPException(500)] lets out. *)
Lemma try_except_500 {A} (c : M A) s e :
  (try_except c (λ _, raise (HTTPException 500)) s).2 = Raise e →
  e = HTTPException 500.
Proof.
  unfold try_except. destruct (c s) as [s' [a|e'|]]; cbn; congruence.
Qed.

(** X13: the creating and the extracting end points never answer 400: the
    only errors they answer are 422 (a negative position, rejected before
    the handler runs) and 500, and [POST /vuelos] only 500; the
    [HTTPException(400)] of their range checks is raised inside the [try]
    and replaced by the handler. *)
Theorem posicion_nunca_400 vd p s e :
  ((agregar_vuelo vd s).2 = Raise e → e = HTTPException 500) ∧
  ((insertar_vuelo_en_posicion vd p s).2 = Raise e →
     e = HTTPException 422 ∨ e = HTTPException 500) ∧
  ((extraer_vuelo_de_posicion p s).2 = Raise e →
     e = HTTPException 422 ∨ e = HTTPException 500).
Proof.
  split; [|split].
  - apply try_except_500.
  - unfold insertar_vuelo_en_posicion. destruct (p <? 0).
    + cbn. intros [= <-]. by left.
    + intros H. right. by eapply try_except_500.
  - unfold extraer_vuelo_de_posicion. destruct (p <? 0).
    + cbn. intros [= <-]. by left.
    + intros H. right. by eapply try_except_500.
Qed.

(** X14: a position beyond the range is answered 500 by both end points,
    and nothing changes: no row is created, no node, no commit is used. *)
Theorem posicion_fuera_de_rango_500 vd p s :
  0 ≤ p →
  (size s < p →
     insertar_vuelo_en_posicion vd p s = (s, Raise (HTTPException 500))) ∧
  (size s ≤ p →
     extraer_vuelo_de_posicion p s = (s, Raise (HTTPException 500))).
Proof.
  intros Hp. split; intros Hfuera.
  - unfold insertar_vuelo_en_posicion, try_except, bind, longitud. cbn.
    decide_bool (p <? 0) false. by decide_bool (p >? size s) true.
  - unfold extraer_vuelo_de_posicion, try_except, bind, longitud. cbn.
    decide_bool (p <? 0) false. by decide_bool (p >=? size s) true.
Qed.

Lemma posicion_fuera_de_rango_500_witness :
  insertar_vuelo_en_posicion (datos "AV3" PROGRAMADO) 5 dos_vuelos =
    (dos_vuelos, Raise (HTTPException 500)) ∧
  extraer_vuelo_de_posicion 5 dos_vuelos = (dos_vuelos, Raise (HTTPException 500)).
Proof.
  destruct (posicion_fuera_de_rango_500 (datos "AV3" PROGRAMADO) 5 dos_vuelos) as [H1 H2].
  - lia.
  - split; [apply H1|apply H2]; cbn; lia.
Defined.

Lemma tabla_evoluciona_ids b b' :
  tabla_evoluciona b b' → map Vuelo.id (filas b') = map Vuelo.id (filas b).
Proof.
  unfold tabla_evoluciona. induction 1 as [|r r' fs fs' [E _] _ IH]; [done|].
  cbn. rewrite IH. f_equal. by apply (f_equal Vuelo.id) in E.
Qed.

(** X15: [DELETE /vuelos/extraer] at a position from 0 to [size - 1]
    answers the flight queued there and takes it out of the queue, and it
    deletes no row: the table has the same keys afterwards. *)
Theorem extraer_vuelo_de_posicion_ok p s cs fuel :
  cadena s cs → 0 ≤ p < size s → (length cs ≤ fuel)%nat →
  ∃ s' v, cs.*2 !! Z.to_nat p = Some v ∧
          extraer_vuelo_de_posicion p s = (s', Ok v) ∧
          listar_todos fuel s' = (s', Ok (delete (Z.to_nat p) cs.*2)) ∧
          map Vuelo.id (filas (session s')) = map Vuelo.id (filas (session s)).
Proof.
  intros Hcad Hp Hfuel. pose proof (cad_size _ _ Hcad) as Hz.
  destruct (extraer_de_posicion_en p s cs Hcad Hp) as (s' & c & Hc & E & Hcad').
  assert (length (delete (Z.to_nat p) cs) = (length cs - 1)%nat) as Hlen.
  { apply length_delete. eauto. }
  pose proof (conserva_extraer_de_posicion p s) as Hfs. rewrite E in Hfs.
  exists s', c.2. split; [|split; [|split]].
  - by rewrite list_lookup_fmap, Hc.
  - unfold extraer_vuelo_de_posicion, try_except, bind, longitud. cbn.
    decide_bool (p <? 0) false. decide_bool (p >=? size s) false. by rewrite E.
  - rewrite (listar_todos_cadena fuel s' _ Hcad') by lia.
    by rewrite !delete_take_drop, fmap_app, fmap_take, fmap_drop.
  - by apply tabla_evoluciona_ids.
Qed.

Lemma extraer_vuelo_de_posicion_ok_witness :
  ∃ s' v, [1; 2] !! 0%nat = Some v ∧
          extraer_vuelo_de_posicion 0 dos_vuelos = (s', Ok v) ∧
          listar_todos 2 s' = (s', Ok [2]) ∧
          map Vuelo.id (filas (session s')) = [1; 2].
Proof.
  apply (extraer_vuelo_de_posicion_ok 0 dos_vuelos [(0%nat, 1); (1%nat, 2)] 2).
  - exact cadena_dos_vuelos.
  - cbn. lia.
  - cbn. lia.
Defined.

(** X16: [PATCH /vuelos/reordenar] on a well formed queue.  A list of the
    queue's length whose ids are all queued is answered with the queue in
    that order; any other list is answered 400 and nothing changes. *)
Theorem reordenar_vuelos_respuesta fuel ids s cs :
  cadena s cs → (length cs ≤ fuel)%nat →
  (length ids = length cs → (∀ i, i ∈ ids → i ∈ cs.*2) →
     ∃ s', reordenar_vuelos fuel ids s = (s', Ok ids) ∧
           listar_todos fuel s' = (s', Ok ids)) ∧
  (length ids ≠ length cs ∨ (∃ i, i ∈ ids ∧ i ∉ cs.*2) →
     reordenar_vuelos fuel ids s = (s, Raise (HTTPException 400))).
Proof.
  intros Hcad Hfuel. pose proof (cad_size _ _ Hcad) as Hz. split.
  - intros Hlen Hids.
    destruct (reordenar_cadena fuel ids s cs Hcad Hlen Hids Hfuel)
      as (s' & cs' & E & Hcad' & Hvs).
    exists s'. unfold reordenar_vuelos, try_except. rewrite E. split; [done|].
    rewrite (listar_todos_cadena fuel s' cs' Hcad'); [by rewrite Hvs|].
    rewrite <- (length_fmap snd), Hvs, Hlen. done.
  - intros Hmal. unfold reordenar_vuelos, try_except.
    destruct (decide (Z.of_nat (length ids) = size s)) as [Hlen|Hlen].
    + destruct Hmal as [Hmal|(i & Hi & Hni)]; [lia|].
      by rewrite (reordenar_id_ajeno fuel ids s cs i).
    + by rewrite reordenar_otra_cantidad.
Qed.

Lemma reordenar_vuelos_respuesta_witness :
  (∃ s', reordenar_vuelos 2 [2; 1] dos_vuelos = (s', Ok [2; 1]) ∧
         listar_todos 2 s' = (s', Ok [2; 1])) ∧
  reordenar_vuelos 2 [2; 7] dos_vuelos = (dos_vuelos, Raise (HTTPException 400)).
Proof.
  split.
  - destruct (reordenar_vuelos_respuesta 2 [2; 1] dos_vuelos [(0%nat, 1); (1%nat, 2)])
      as [H _].
    + exact cadena_dos_vuelos.
    + cbn. lia.
    + apply H; [done|]. cbn. intros i Hi.
      apply elem_of_cons in Hi as [->|Hi]; [apply list_elem_of_further, list_elem_of_here|].
      apply list_elem_of_singleton in Hi as ->. apply list_elem_of_here.
  - destruct (reordenar_vuelos_respuesta 2 [2; 7] dos_vuelos [(0%nat, 1); (1%nat, 2)])
      as [_ H].
    + exact cadena_dos_vuelos.
    + cbn. lia.
    + apply H. right. exists 7. cbn. split.
      * apply list_elem_of_further, list_elem_of_here.
      * intros H1. apply elem_of_cons in H1 as [H1|H1]; [done|].
        by apply list_elem_of_singleton in H1.
Defined.

(** What [db_crear] does when the commit fails or the code is taken, and
    when neither happens. *)
Lemma db_crear_falla vd s :
  commit_ok (session s) = false ∨ codigo_ocupado vd (filas (session s)) = true →
  ∃ b', db_crear vd s = (con_session b' s, Raise SQLAlchemyError) ∧
        filas b' = filas (session s).
Proof.
  unfold db_crear, bind, commit_ok. cbn.
  destruct (fallos (session s)) as [|[] resto]; intros [H|H]; try done;
    try rewrite H; by eexists.
Qed.

Lemma db_crear_exito vd s :
  commit_ok (session s) = true →
  codigo_ocupado vd (filas (session s)) = false →
  db_crear vd s =
    (con_session
       {| filas := filas (session s) ++ [nueva_fila vd (proximo_id (filas (session s)))];
          fallos := tail (fallos (session s)) |} s,
     Ok (proximo_id (filas (session s)))).
Proof.
  unfold db_crear, bind, commit_ok. cbn. intros Hok ->.
  by destruct (fallos (session s)) as [|[] resto].
Qed.

(** X17: when the commit that creates the row fails, or the code is already
    in the table, both creating end points answer 500 and leave the queue
    and the rows of the table as they were. *)
Theorem creacion_fallida vd p s :
  commit_ok (session s) = false ∨ codigo_ocupado vd (filas (session s)) = true →
  (∃ s', agregar_vuelo vd s = (s', Raise (HTTPException 500)) ∧
         memoria s' = memoria s ∧
         filas (session s') = filas (session s)) ∧
  (0 ≤ p ≤ size s →
   ∃ s', insertar_vuelo_en_posicion vd p s = (s', Raise (HTTPException 500)) ∧
         memoria s' = memoria s ∧
         filas (session s') = filas (session s)).
Proof.
  intros Hfalla. destruct (db_crear_falla vd s Hfalla) as (b' & E & Hfs). split.
  - exists (con_session b' s). unfold agregar_vuelo, try_except, bind. by rewrite E.
  - intros Hp. exists (con_session b' s).
    unfold insertar_vuelo_en_posicion, try_except, bind, longitud. cbn.
    decide_bool (p <? 0) false. decide_bool (p >? size s) false. by rewrite E.
Qed.

Lemma creacion_fallida_witness :
  (∃ s', agregar_vuelo (datos "AV1" PROGRAMADO) dos_vuelos =
           (s', Raise (HTTPException 500)) ∧
         memoria s' = memoria dos_vuelos ∧
         filas (session s') = filas (session dos_vuelos)) ∧
  (∃ s', insertar_vuelo_en_posicion (datos "AV1" PROGRAMADO) 1 dos_vuelos =
           (s', Raise (HTTPException 500)) ∧
         memoria s' = memoria dos_vuelos ∧
         filas (session s') = filas (session dos_vuelos)).
Proof.
  destruct (creacion_fallida (datos "AV1" PROGRAMADO) 1 dos_vuelos) as [H1 H2].
  - right. reflexivity.
  - split; [exact H1|]. apply H2. cbn. lia.
Defined.

(** X18: [POST /vuelos] with a code that is free, when the commit that
    creates the row goes through, on a well formed queue: the answer is the
    new flight, whose key is positive and was not in the table; the flight
    is first in the queue when it is an emergency and last otherwise; and
    the table has one more row, with that key, whichever later commits
    fail. *)
Theorem agregar_vuelo_ok vd s cs fuel :
  cadena s cs →
  commit_ok (session s) = true →
  codigo_ocupado vd (filas (session s)) = false →
  (length cs < fuel)%nat →
  ∃ s' v, agregar_vuelo vd s = (s', Ok v) ∧
          0 < v ∧ (v ∉ map Vuelo.id (filas (session s))) ∧
          listar_todos fuel s' =
            (s', Ok (if decide (VueloBase.estado vd = EMERGENCIA)
                     then v :: cs.*2 else cs.*2 ++ [v])) ∧
          map Vuelo.id (filas (session s')) = map Vuelo.id (filas (session s)) ++ [v].
Proof.
  intros Hcad Hok Hlibre Hfuel.
  pose proof (db_crear_exito vd s Hok Hlibre) as Ecrear.
  destruct (proximo_id_nuevo (filas (session s))) as [Hnuevo Hpos].
  set (v := proximo_id (filas (session s))) in *.
  set (s1 := con_session _ s) in Ecrear.
  assert (cadena s1 cs) as Hcad1 by by apply cadena_con_session.
  assert (map Vuelo.id (filas (session s1)) = map Vuelo.id (filas (session s)) ++ [v])
    as Hids by (cbn; by rewrite map_app).
  unfold agregar_vuelo, try_except, bind. rewrite Ecrear.
  destruct (decide (VueloBase.estado vd = EMERGENCIA)) as [Hem|Hem].
  - destruct (insertar_al_frente_cadena v s1 cs Hcad1) as (s' & E & Hcad' & _).
    pose proof (conserva_insertar_al_frente v s1) as Hfs. rewrite E in Hfs.
    rewrite E. exists s', v. split; [done|]. split; [done|]. split; [done|]. split.
    + by rewrite (listar_todos_cadena fuel s' _ Hcad') by (cbn; lia).
    + rewrite <- Hids. by apply tabla_evoluciona_ids.
  - destruct (insertar_al_final_cadena v s1 cs Hcad1) as (s' & E & Hcad' & _).
    pose proof (conserva_insertar_al_final v s1) as Hfs. rewrite E in Hfs.
    rewrite E. exists s', v. split; [done|]. split; [done|]. split; [done|]. split.
    + rewrite (listar_todos_cadena fuel s' _ Hcad') by (rewrite length_app; cbn; lia).
      by rewrite fmap_snoc.
    + rewrite <- Hids. by apply tabla_evoluciona_ids.
Qed.

Lemma agregar_vuelo_ok_witness :
  ∃ s' v, agregar_vuelo (datos "AV3" EMERGENCIA) dos_vuelos = (s', Ok v) ∧
          0 < v ∧ (v ∉ map Vuelo.id (filas (session dos_vuelos))) ∧
          listar_todos 3 s' = (s', Ok (v :: [1; 2])) ∧
          map Vuelo.id (filas (session s')) = [1; 2] ++ [v].
Proof.
  apply (agregar_vuelo_ok (datos "AV3" EMERGENCIA) dos_vuelos [(0%nat, 1); (1%nat, 2)] 3).
  - exact cadena_dos_vuelos.
  - reflexivity.
  - reflexivity.
  - cbn. lia.
Defined.

(** X19: [POST /vuelos/insertar] at a position from 0 to [size], with a
    code that is free, when the commit that creates the row goes through,
    on a well formed queue: the answer is the new flight, under a positive
    key that was not in the table, queued at that position, and the table
    has one more row, with that key. *)
Theorem insertar_vuelo_en_posicion_ok vd p s cs fuel :
  cadena s cs →
  0 ≤ p ≤ size s →
  commit_ok (session s) = true →
  codigo_ocupado vd (filas (session s)) = false →
  (length cs < fuel)%nat →
  ∃ s' v, insertar_vuelo_en_posicion vd p s = (s', Ok v) ∧
          0 < v ∧ (v ∉ map Vuelo.id (filas (session s))) ∧
          listar_todos fuel s' =
            (s', Ok (take (Z.to_nat p) cs.*2 ++ v :: drop (Z.to_nat p) cs.*2)) ∧
          map Vuelo.id (filas (session s')) = map Vuelo.id (filas (session s)) ++ [v].
Proof.
  intros Hcad Hp Hok Hlibre Hfuel. pose proof (cad_size _ _ Hcad) as Hz.
  pose proof (db_crear_exito vd s Hok Hlibre) as Ecrear.
  destruct (proximo_id_nuevo (filas (session s))) as [Hnuevo Hpos].
  set (v := proximo_id (filas (session s))) in *.
  set (s1 := con_session _ s) in Ecrear.
  assert (cadena s1 cs) as Hcad1 by by apply cadena_con_session.
  assert (map Vuelo.id (filas (session s1)) = map Vuelo.id (filas (session s)) ++ [v])
    as Hids by (cbn; by rewrite map_app).
  destruct (insertar_en_posicion_en v p s1 cs Hcad1 Hp) as (s' & E & Hcad').
  pose proof (conserva_insertar_en_posicion v p s1) as Hfs. rewrite E in Hfs.
  exists s', v. split; [|split; [done|split; [done|split]]].
  - unfold insertar_vuelo_en_posicion, try_except, bind, longitud. cbn.
    decide_bool (p <? 0) false. decide_bool (p >? size s) false.
    rewrite Ecrear. by rewrite E.
  - rewrite (listar_todos_cadena fuel s' _ Hcad').
    + by rewrite fmap_app, fmap_cons, fmap_take, fmap_drop.
    + rewrite length_app. cbn. rewrite length_take, length_drop. lia.
  - rewrite <- Hids. by apply tabla_evoluciona_ids.
Qed.

Lemma insertar_vuelo_en_posicion_ok_witness :
  ∃ s' v, insertar_vuelo_en_posicion (datos "AV3" RETRASADO) 1 dos_vuelos = (s', Ok v) ∧
          0 < v ∧ (v ∉ map Vuelo.id (filas (session dos_vuelos))) ∧
          listar_todos 3 s' = (s', Ok ([1] ++ v :: [2])) ∧
          map Vuelo.id (filas (session s')) = [1; 2] ++ [v].
Proof.
  apply (insertar_vuelo_en_posicion_ok (datos "AV3" RETRASADO) 1 dos_vuelos
           [(0%nat, 1); (1%nat, 2)] 3).
  - exact cadena_dos_vuelos.
  - cbn. lia.
  - reflexivity.
  - reflexivity.
  - cbn. lia.
Defined.

(** ** Round trip through the table *)

#[local] Instance mismas_filas_refl : Reflexive mismas_filas.
Proof. by intros b. Qed.

#[local] Instance mismas_filas_trans : Transitive mismas_filas.
Proof.
  intros b1 b2 b3 [E1 F1] [E2 F2]. split; [congruence|auto].
Qed.

Lemma asignar_nada r : asignar None None r = r.
Proof. by destruct r. Qed.

Lemma actualizar_fila_nada v fs : actualizar_fila v (asignar None None) fs = fs.
Proof.
  unfold actualizar_fila. induction fs as [|r fs IH]; cbn; [done|].
  rewrite IH. case_decide; by rewrite ?asignar_nada.
Qed.

(** A call of [_actualizar_bd] that is given no link writes nothing. *)
Lemma conserva_sin_enlaces v : conserva mismas_filas (_actualizar_bd v None None).
Proof.
  intros s. rewrite _actualizar_bd_eq. cbn. unfold mismas_filas, tras_commit.
  destruct (fallos (session s)) as [|[] resto]; cbn; by rewrite ?actualizar_fila_nada.
Qed.

#[local] Hint Resolve conserva_sin_enlaces : conserva.

(** Extraction at the head or at the tail passes [None] for the links in
    every call of [_actualizar_bd]. *)
Lemma extraer_extremo_mismas_filas p s :
  p = 0 ∨ p = size s - 1 →
  mismas_filas (session s) (session (extraer_de_posicion p s).1).
Proof.
  intros Hp. destruct (decide (p < 0 ∨ p > size s - 1)) as [Hfuera|Hdentro].
  { by rewrite extraer_de_posicion_fuera. }
  unfold extraer_de_posicion. rewrite (bind_ok (leer size) _ s s (size s)) by done.
  decide_bool (p <? 0) false. decide_bool (p >=? size s) false. cbn [orb].
  destruct (decide (p = 0)) as [->|Hp0].
  - change (0 =? 0) with true. cbv beta iota.
    match goal with
    | |- mismas_filas _ (session (?c s).1) =>
        assert (conserva mismas_filas c) as Hc; [|exact (Hc s)]
    end.
    repeat conserva_paso.
  - destruct Hp as [Hp|Hp]; [done|].
    decide_bool (p =? 0) false. decide_bool (p =? size s - 1) true. cbv beta iota.
    match goal with
    | |- mismas_filas _ (session (?c s).1) =>
        assert (conserva mismas_filas c) as Hc; [|exact (Hc s)]
    end.
    repeat conserva_paso.
Qed.

Lemma mismas_filas_sin_fallos b b' : mismas_filas b b' → fallos b = [] → b' = b.
Proof.
  intros [E F] H. specialize (F H). destruct b, b'. cbn in *. congruence.
Qed.

(** The engine built on a table that holds a queue holds that queue. *)
Lemma cargar_tabla_con_cola fuel b vs :
  tabla_con_cola b vs →
  (length vs ≤ fuel)%nat →
  ∃ s cs, ListaVuelos_init fuel b = (s, Ok tt) ∧
          cadena s cs ∧ cs.*2 = vs ∧ session s = b.
Proof.
  intros [Hf Hn Hv Hnv Hpos Hs Hcab] Hfuel.
  destruct vs as [|v vs]; [done|].
  apply cargar_cadena_enlazada; try done.
  - intros r Hr Ha. specialize (Hcab r Hr Ha). cbn in Hcab. congruence.
  - intros i Hi. apply Hpos. by apply list_elem_of_further.
  - cbn in Hfuel. lia.
Qed.








Lemma tabla_cuatro_con_cola : tabla_con_cola tabla_cuatro [1; 2; 3; 4].
Proof.
  split.
  - done.
  - apply (bool_decide_unpack _). by vm_compute.
  - done.
  - apply (bool_decide_unpack _). by vm_compute.
  - apply Forall_forall. apply (bool_decide_unpack _). by vm_compute.
  - vm_compute. by repeat split.
  - intros r Hr Ha. cbn in Hr.
    apply elem_of_cons in Hr as [->|Hr]; [done|].
    apply elem_of_cons in Hr as [->|Hr]; [done|].
    apply elem_of_cons in Hr as [->|Hr]; [done|].
    by apply list_elem_of_singleton in Hr as ->.
Qed.



(** X21: a flight extracted at the head or at the tail comes back after a
    restart.  Take a table that holds a queue, with no failing commit to
    come, and the engine built on it: extracting the first or the last
    flight takes it out of the queue in memory and writes nothing, so a new
    engine built on the table lists the queue from before the extraction,
    the extracted flight included. *)
Theorem extraido_reaparece b vs p fuel :
  tabla_con_cola b vs →
  (length vs ≤ fuel)%nat →
  p = 0 ∨ p = Z.of_nat (length vs) - 1 →
  ∃ s v s' s'',
    ListaVuelos_init fuel b = (s, Ok tt) ∧
    listar_todos fuel s = (s, Ok vs) ∧
    vs !! Z.to_nat p = Some v ∧
    extraer_de_posicion p s = (s', Ok v) ∧
    listar_todos fuel s' = (s', Ok (delete (Z.to_nat p) vs)) ∧
    session s' = b ∧
    ListaVuelos_init fuel (session s') = (s'', Ok tt) ∧
    listar_todos fuel s'' = (s'', Ok vs).
Proof.
  intros Htab Hfuel Hextremo.
  destruct (cargar_tabla_con_cola fuel b vs Htab Hfuel) as (s & cs & E & Hcad & Hvs & Hses).
  assert (length cs = length vs) as Hlen by (by rewrite <- Hvs, length_fmap).
  pose proof (cad_size _ _ Hcad) as Hz.
  assert (vs ≠ []) as Hno by apply Htab.
  assert (0 < length vs)%nat as Hpos by (destruct vs; [done|cbn; lia]).
  destruct (extraer_de_posicion_en p s cs Hcad) as (s' & c & Hc & E' & Hcad'); [lia|].
  assert (p = 0 ∨ p = size s - 1) as Hextremo' by lia.
  pose proof (extraer_extremo_mismas_filas p s Hextremo') as Hfs. rewrite E' in Hfs.
  apply mismas_filas_sin_fallos in Hfs; [|rewrite Hses; apply Htab]. cbn in Hfs.
  assert (length (delete (Z.to_nat p) cs) = (length cs - 1)%nat) as Hdel.
  { apply length_delete. eauto. }
  exists s, c.2, s', s. split; [done|].
  assert (listar_todos fuel s = (s, Ok vs)) as Hlista.
  { rewrite (listar_todos_cadena fuel s cs Hcad) by lia. by rewrite Hvs. }
  split; [done|]. split; [by rewrite <- Hvs, list_lookup_fmap, Hc|].
  split; [done|]. split; [|split; [by rewrite Hfs|split; [by rewrite Hfs, Hses|done]]].
  rewrite (listar_todos_cadena fuel s' _ Hcad') by lia.
  by rewrite <- Hvs, !delete_take_drop, fmap_app, fmap_take, fmap_drop.
Qed.

Lemma extraido_reaparece_witness :
  ∃ s v s' s'',
    ListaVuelos_init 4 tabla_cuatro = (s, Ok tt) ∧
    listar_todos 4 s = (s, Ok [1; 2; 3; 4]) ∧
    [1; 2; 3; 4] !! Z.to_nat 3 = Some v ∧
    extraer_de_posicion 3 s = (s', Ok v) ∧
    listar_todos 4 s' = (s', Ok (delete (Z.to_nat 3) [1; 2; 3; 4])) ∧
    session s' = tabla_cuatro ∧
    ListaVuelos_init 4 (session s') = (s'', Ok tt) ∧
    listar_todos 4 s'' = (s'', Ok [1; 2; 3; 4]).
Proof.
  apply (extraido_reaparece tabla_cuatro [1; 2; 3; 4] 3 4).
  - exact tabla_cuatro_con_cola.
  - cbn. lia.
  - right. reflexivity.
Defined.

(** ** Mission queues: the queries *)

Lemma filter_by_snoc p ms rs r :
  filter_by p {| misiones := ms; misiones_personaje := rs ++ [r] |} =
  filter_by p {| misiones := ms; misiones_personaje := rs |} ++
    (if decide (MisionPersonaje.personaje_id r = p) then [r] else []).
Proof.
  unfold filter_by. cbn. rewrite filter_app. by f_equal.
Qed.

Lemma clave_ocupada_false p m bd :
  clave_ocupada p m bd = false ↔ m ∉ MisionPersonaje.mision_id <$> filter_by p bd.
Proof.
  unfold clave_ocupada, filter_by. induction (misiones_personaje bd) as [|r rs IH]; cbn.
  - split; [intros _ H; by apply elem_of_nil in H|done].
  - rewrite orb_false_iff, IH, andb_false_iff, !Z.eqb_neq.
    destruct (decide (MisionPersonaje.personaje_id r = p)) as [E|E].
    + rewrite fmap_cons, not_elem_of_cons.
      split; [intros [[?|?] ?]; [done|by split]|intros [? ?]; split; [by right|done]].
    + split; [by intros [_ ?]|intros ?; split; [by left|done]].
Qed.

Lemma va_antes_menor r x :
  MisionPersonaje.orden r < MisionPersonaje.orden x → va_antes r x = true.
Proof. intros H. unfold va_antes. by apply Z.ltb_lt in H as ->. Qed.

Lemma va_antes_mayor r x :
  MisionPersonaje.orden x < MisionPersonaje.orden r → va_antes r x = false.
Proof.
  intros H. unfold va_antes.
  assert ((MisionPersonaje.orden r <? MisionPersonaje.orden x) = false) as ->
    by (apply Z.ltb_ge; lia).
  assert ((MisionPersonaje.orden r =? MisionPersonaje.orden x) = false) as ->
    by (apply Z.eqb_neq; lia).
  done.
Qed.

Lemma va_antes_refl r : va_antes r r = true.
Proof.
  unfold va_antes. rewrite !Z.eqb_refl, Z.leb_refl. cbn. by rewrite !orb_true_r.
Qed.

Lemma insertar_por_orden_perm x l : insertar_por_orden x l ≡ₚ x :: l.
Proof.
  induction l as [|y l IH]; cbn; [done|].
  destruct (va_antes x y); [done|].
  rewrite IH. apply Permutation_swap.
Qed.

Lemma order_by_perm l : order_by l ≡ₚ l.
Proof.
  induction l as [|x l IH]; [done|].
  change (order_by (x :: l)) with (insertar_por_orden x (order_by l)).
  by rewrite insertar_por_orden_perm, IH.
Qed.


(** The row that [order_by(orden).first()] answers: the one whose [orden]
    is below every other. *)
Lemma head_order_by l r :
  r ∈ l →
  (∀ x, x ∈ l → x ≠ r → MisionPersonaje.orden r < MisionPersonaje.orden x) →
  head (order_by l) = Some r.
Proof.
  induction l as [|y l IH]; intros Hin Hmin; [by apply elem_of_nil in Hin|].
  change (order_by (y :: l)) with (insertar_por_orden y (order_by l)).
  destruct (decide (y = r)) as [->|Hne].
  - destruct (order_by l) as [|z l'] eqn:E; [done|]. cbn.
    assert (z ∈ l) as Hz.
    { rewrite <- (order_by_perm l), E. apply list_elem_of_here. }
    destruct (decide (z = r)) as [->|Hzr].
    + by rewrite va_antes_refl.
    + assert (MisionPersonaje.orden r < MisionPersonaje.orden z) as Hlt.
      { apply Hmin; [by apply list_elem_of_further|done]. }
      by rewrite va_antes_menor.
  - apply elem_of_cons in Hin as [->|Hin]; [done|].
    assert (head (order_by l) = Some r) as Hh.
    { apply IH; [done|]. intros x Hx. apply Hmin. by apply list_elem_of_further. }
    destruct (order_by l) as [|z l']; [done|]. cbn in Hh. injection Hh as ->. cbn.
    assert (MisionPersonaje.orden r < MisionPersonaje.orden y) as Hlt.
    { apply Hmin; [apply list_elem_of_here|done]. }
    by rewrite va_antes_mayor.
Qed.

Lemma query_get_id i bd m : query_get i bd = Some m → Mision.id m = i.
Proof.
  unfold query_get. intros [_ H]%find_some. by apply bool_decide_eq_true in H.
Qed.

Lemma query_get_actualizar i j e ms rs rs' :
  query_get i {| misiones := actualizar_estado j e ms; misiones_personaje := rs' |} =
  (λ m, if decide (Mision.id m = j) then con_estado e m else m) <$>
    query_get i {| misiones := ms; misiones_personaje := rs |}.
Proof.
  unfold query_get, actualizar_estado. cbn. induction ms as [|m ms IH]; [done|]. cbn.
  assert (Mision.id (if decide (Mision.id m = j) then con_estado e m else m) = Mision.id m)
    as -> by by case_decide.
  by case_bool_decide.
Qed.

Lemma enqueue_hecho p m bd :
  m ∉ MisionPersonaje.mision_id <$> filter_by p bd →
  ∃ bd', ColaMisiones.enqueue p m bd = (bd', Ok tt) ∧
         filter_by p bd' =
           filter_by p bd ++
             [{| MisionPersonaje.personaje_id := p; MisionPersonaje.mision_id := m;
                 MisionPersonaje.orden := Z.of_nat (length (filter_by p bd)) + 1 |}] ∧
         (∀ q, q ≠ p → filter_by q bd' = filter_by q bd) ∧
         misiones bd' = misiones bd.
Proof.
  intros H. unfold ColaMisiones.enqueue.
  apply clave_ocupada_false in H as ->. eexists. split; [done|].
  destruct bd as [ms rs]. cbn [misiones misiones_personaje].
  split; [|split; [|done]].
  - rewrite filter_by_snoc. cbn. by rewrite decide_True.
  - intros q Hq. rewrite filter_by_snoc. cbn. rewrite decide_False by done.
    by rewrite app_nil_r.
Qed.

(** X23: for keys that SQLite can store, [enqueue] of a mission the
    character already has queued raises (the primary key) and changes
    nothing; of any other mission, whether it has a row or not, it adds
    one row for the character with [orden] one more than the number of
    rows the character had, so [size] grows by one, and it touches neither
    the other characters' rows nor the missions. *)
Theorem enqueue_resultado p m bd :
  entero_sqlite p →
  entero_sqlite m →
  (m ∈ MisionPersonaje.mision_id <$> filter_by p bd →
     ColaMisiones.enqueue p m bd = (bd, Raise SQLAlchemyError)) ∧
  (m ∉ MisionPersonaje.mision_id <$> filter_by p bd →
     ∃ bd', ColaMisiones.enqueue p m bd = (bd', Ok tt) ∧
            filter_by p bd' =
              filter_by p bd ++
                [{| MisionPersonaje.personaje_id := p; MisionPersonaje.mision_id := m;
                    MisionPersonaje.orden := Z.of_nat (length (filter_by p bd)) + 1 |}] ∧
            ColaMisiones.size p bd' =
              (bd', Ok (Z.of_nat (length (filter_by p bd)) + 1)) ∧
            (∀ q, q ≠ p → filter_by q bd' = filter_by q bd) ∧
            misiones bd' = misiones bd).
Proof.
  intros _ _. split; intros H.
  - unfold ColaMisiones.enqueue. destruct (clave_ocupada p m bd) eqn:E; [done|].
    by apply clave_ocupada_false in E.
  - destruct (enqueue_hecho p m bd H) as (bd' & E & Hp & Hq & Hms).
    exists bd'. split; [done|]. split; [done|]. split; [|done].
    unfold ColaMisiones.size. rewrite Hp, length_app. cbn. do 2 f_equal. lia.
Qed.

Lemma enqueue_resultado_witness :
  ColaMisiones.enqueue 7 3 bd_con_cola = (bd_con_cola, Raise SQLAlchemyError) ∧
  ∃ bd', ColaMisiones.enqueue 7 1 bd_con_cola = (bd', Ok tt) ∧
         filter_by 7 bd' =
           filter_by 7 bd_con_cola ++
             [{| MisionPersonaje.personaje_id := 7; MisionPersonaje.mision_id := 1;
                 MisionPersonaje.orden := 3 |}] ∧
         ColaMisiones.size 7 bd' = (bd', Ok 3) ∧
         (∀ q, q ≠ 7 → filter_by q bd' = filter_by q bd_con_cola) ∧
         misiones bd' = misiones bd_con_cola.
Proof.
  assert (∀ z, 0 ≤ z < 10 → entero_sqlite z) as Hz by (unfold entero_sqlite; lia).
  split.
  - destruct (enqueue_resultado 7 3 bd_con_cola) as [H _]; [apply Hz; lia..|]. apply H.
    vm_compute. apply list_elem_of_further, list_elem_of_here.
  - destruct (enqueue_resultado 7 1 bd_con_cola) as [_ H]; [apply Hz; lia..|]. apply H.
    vm_compute. intros H1.
    apply elem_of_cons in H1 as [H1|H1]; [done|].
    by apply list_elem_of_singleton in H1.
Defined.

(** What [dequeue] does when the first row names a mission that has a
    row. *)
Lemma dequeue_hecho p bd r mision :
  r ∈ filter_by p bd →
  (∀ x, x ∈ filter_by p bd → x ≠ r → MisionPersonaje.orden r < MisionPersonaje.orden x) →
  query_get (MisionPersonaje.mision_id r) bd = Some mision →
  ∃ bd', ColaMisiones.dequeue p bd = (bd', Ok (Some (con_estado completada mision))) ∧
         filter_by p bd' =
           filter (λ x, MisionPersonaje.mision_id x ≠ MisionPersonaje.mision_id r)
                  (filter_by p bd) ∧
         (∀ q, q ≠ p → filter_by q bd' = filter_by q bd) ∧
         (∀ i, query_get i bd' = completar (MisionPersonaje.mision_id r) <$> query_get i bd).
Proof.
  intros Hin Hmin Hget. unfold ColaMisiones.dequeue.
  rewrite (head_order_by _ r Hin Hmin), Hget. eexists. split; [done|].
  pose proof (query_get_id _ _ _ Hget) as Hid.
  assert (MisionPersonaje.personaje_id r = p) as Hp.
  { unfold filter_by in Hin. by apply list_elem_of_filter in Hin as [? _]. }
  destruct bd as [ms rs]. cbn [misiones misiones_personaje].
  split; [|split].
  - unfold filter_by, borrar. cbn. rewrite !list_filter_filter.
    apply list_filter_iff. intros x. rewrite Hp. intuition congruence.
  - intros q Hq. unfold filter_by, borrar. cbn. rewrite list_filter_filter.
    apply list_filter_iff. intros x. rewrite Hp. intuition congruence.
  - intros i. rewrite (query_get_actualizar _ _ _ _ rs), Hid. done.
Qed.

(** X24: [dequeue] on a queue whose first row (the one with the least
    [orden]) names a mission that has a row: the answer is that mission,
    marked [completada]; the mission is marked so in the table and no
    other mission changes; the character's rows for that mission are
    deleted, its other rows and the rows of the other characters stay. *)
Theorem dequeue_primera p bd r mision :
  r ∈ filter_by p bd →
  (∀ x, x ∈ filter_by p bd → x ≠ r → MisionPersonaje.orden r < MisionPersonaje.orden x) →
  query_get (MisionPersonaje.mision_id r) bd = Some mision →
  ∃ bd', ColaMisiones.dequeue p bd = (bd', Ok (Some (con_estado completada mision))) ∧
         filter_by p bd' =
           filter (λ x, MisionPersonaje.mision_id x ≠ MisionPersonaje.mision_id r)
                  (filter_by p bd) ∧
         (∀ q, q ≠ p → filter_by q bd' = filter_by q bd) ∧
         query_get (MisionPersonaje.mision_id r) bd' = Some (con_estado completada mision) ∧
         (∀ i, i ≠ MisionPersonaje.mision_id r → query_get i bd' = query_get i bd).
Proof.
  intros Hin Hmin Hget.
  destruct (dequeue_hecho p bd r mision Hin Hmin Hget) as (bd' & E & Hp & Hq & Hms).
  pose proof (query_get_id _ _ _ Hget) as Hid.
  exists bd'. split; [done|]. split; [done|]. split; [done|]. split.
  - rewrite Hms, Hget. cbn. unfold completar. by rewrite decide_True.
  - intros i Hi. rewrite Hms. destruct (query_get i bd) as [m'|] eqn:E'; [|done].
    cbn. apply query_get_id in E'. unfold completar.
    rewrite decide_False; [done|congruence].
Qed.

Lemma dequeue_primera_witness :
  ∃ bd', ColaMisiones.dequeue 7 bd_con_cola =
           (bd', Ok (Some (con_estado completada (mision_ejemplo 3)))) ∧
         filter_by 7 bd' =
           [{| MisionPersonaje.personaje_id := 7; MisionPersonaje.mision_id := 2;
               MisionPersonaje.orden := 5 |}] ∧
         (∀ q, q ≠ 7 → filter_by q bd' = filter_by q bd_con_cola) ∧
         query_get 3 bd' = Some (con_estado completada (mision_ejemplo 3)) ∧
         (∀ i, i ≠ 3 → query_get i bd' = query_get i bd_con_cola).
Proof.
  apply (dequeue_primera 7 bd_con_cola
           {| MisionPersonaje.personaje_id := 7; MisionPersonaje.mision_id := 3;
              MisionPersonaje.orden := 4 |}
           (mision_ejemplo 3)).
  - vm_compute. apply list_elem_of_further, list_elem_of_here.
  - intros x Hx Hne. vm_compute in Hx.
    apply elem_of_cons in Hx as [->|Hx]; [cbn; lia|].
    by apply list_elem_of_singleton in Hx.
  - reflexivity.
Defined.


Lemma omap_length_le {A B} (f : A → option B) l :
  (length (omap f l) ≤ length l)%nat.
Proof. induction l as [|y l IH]; cbn; [done|]. destruct (f y); cbn; lia. Qed.

Lemma omap_length_lt {A B} (f : A → option B) l x :
  x ∈ l → f x = None → (length (omap f l) < length l)%nat.
Proof.
  intros Hx Hf. induction l as [|y l IH]; [by apply elem_of_nil in Hx|].
  pose proof (omap_length_le f l) as Hle; cbn.
  apply elem_of_cons in Hx as [<-|Hx].
  - rewrite Hf. lia.
  - specialize (IH Hx). destruct (f y); cbn; lia.
Qed.

(** X26: a queue stuck on a mission that has no row.  When the first row of
    the character (least [orden]) names a mission that is not in
    [misiones] (nothing checks that on [enqueue]), [dequeue] raises
    [AttributeError] and changes nothing, so every later [dequeue] raises
    as well; meanwhile the listing leaves that row out and is shorter than
    what [size] answers. *)
Theorem dequeue_sin_mision p bd r n :
  r ∈ filter_by p bd →
  (∀ x, x ∈ filter_by p bd → x ≠ r → MisionPersonaje.orden r < MisionPersonaje.orden x) →
  query_get (MisionPersonaje.mision_id r) bd = None →
  ColaMisiones.dequeue p bd = (bd, Raise AttributeError) ∧
  desencolar p (S n) bd = (bd, Raise AttributeError) ∧
  ∃ ms k, listar_misiones p bd = (bd, Ok ms) ∧
          ColaMisiones.size p bd = (bd, Ok k) ∧
          Z.of_nat (length ms) < k.
Proof.
  intros Hin Hmin Hget.
  assert (ColaMisiones.dequeue p bd = (bd, Raise AttributeError)) as E.
  { unfold ColaMisiones.dequeue. by rewrite (head_order_by _ r Hin Hmin), Hget. }
  split; [done|]. split; [cbn [desencolar]; by rewrite E|].
  eexists _, _. split; [done|]. split; [done|].
  unfold query_join. rewrite <- (Permutation_length (order_by_perm (filter_by p bd))).
  apply inj_lt. apply (omap_length_lt _ _ r); [|done].
  by rewrite (order_by_perm (filter_by p bd)).
Qed.

Lemma dequeue_sin_mision_witness :
  ColaMisiones.dequeue 7
    {| misiones := []; misiones_personaje := misiones_personaje bd_con_cola |} =
    ({| misiones := []; misiones_personaje := misiones_personaje bd_con_cola |},
     Raise AttributeError) ∧
  desencolar 7 3
    {| misiones := []; misiones_personaje := misiones_personaje bd_con_cola |} =
    ({| misiones := []; misiones_personaje := misiones_personaje bd_con_cola |},
     Raise AttributeError) ∧
  ∃ ms k,
    listar_misiones 7
      {| misiones := []; misiones_personaje := misiones_personaje bd_con_cola |} =
      ({| misiones := []; misiones_personaje := misiones_personaje bd_con_cola |}, Ok ms) ∧
    ColaMisiones.size 7
      {| misiones := []; misiones_personaje := misiones_personaje bd_con_cola |} =
      ({| misiones := []; misiones_personaje := misiones_personaje bd_con_cola |}, Ok k) ∧
    Z.of_nat (length ms) < k.
Proof.
  apply (dequeue_sin_mision 7
           {| misiones := []; misiones_personaje := misiones_personaje bd_con_cola |}
           {| MisionPersonaje.personaje_id := 7; MisionPersonaje.mision_id := 3;
              MisionPersonaje.orden := 4 |} 2).
  - vm_compute. apply list_elem_of_further, list_elem_of_here.
  - intros x Hx Hne. vm_compute in Hx.
    apply elem_of_cons in Hx as [->|Hx]; [cbn; lia|].
    by apply list_elem_of_singleton in Hx.
  - reflexivity.
Defined.




(** ** Mission queues: the order of service *)














